(** * darkmahou-provider: the matching and parsing core, embedded in Rocq

    Shallow embedding of [src/darkmahou/darkmahou-provider.ts]:
    the type guards, [TorrentParser], [PerformanceCache],
    [StringNormalizer], [LevenshteinCalculator], [FuzzyStringMatcher] and
    [AnimePageExtractor.calculateAdvancedMatchScore].

    - A JavaScript string is the list of its UTF-16 code units ([list N]).
    - A regular expression literal is a term of [Regex.regex], run by a
      backtracking matcher that follows the ECMAScript matching order
      (leftmost start, alternatives left to right, greedy quantifiers).
    - A JavaScript number that holds a score or a metric is an IEEE-754
      binary64 value ([PrimFloat.float]); lengths, distances and parsed
      episode numbers are exact integers ([nat], [Z]).
    - The static state of [PerformanceCache] (the [Map] and the metrics) is
      threaded explicitly. *)

From Stdlib Require Import ZArith NArith List Bool Lia String Ascii.
From Stdlib Require Import Uint63 PrimFloat SpecFloat FloatOps FloatAxioms.
Import ListNotations.

Set Implicit Arguments.
Set Warnings "-inexact-float".
Local Open Scope N_scope.

(* ================================================================== *)
(** * Part I. The embedding                                            *)
(* ================================================================== *)

(** ** JavaScript strings *)

Module JS.

Definition jsstring := list N.

(** A String has at most [2^53 - 1] code units (ECMA-262, 6.1.4). *)
Definition MAX_STRING_LENGTH : Z := 2 ^ 53 - 1.

Definition within_max_length (s : jsstring) : Prop :=
  (Z.of_nat (List.length s) <= MAX_STRING_LENGTH)%Z.

(** An ASCII literal of the source as a string of code units. *)
Fixpoint js (s : string) : jsstring :=
  match s with
  | EmptyString => []
  | String a s' => N_of_ascii a :: js s'
  end.

Definition ch (a : ascii) : N := N_of_ascii a.

Definition between (lo hi c : N) : bool := (lo <=? c) && (c <=? hi).

Definition is_digit (c : N) : bool := between 48 57 c.
Definition is_upper (c : N) : bool := between 65 90 c.
Definition is_lower (c : N) : bool := between 97 122 c.

(** [\w] is [[A-Za-z0-9_]]. *)
Definition is_word (c : N) : bool :=
  is_digit c || is_upper c || is_lower c || (c =? 95).

(** [\s], and the characters [String.prototype.trim] strips: WhiteSpace and
    LineTerminator of ECMA-262. *)
Definition is_space (c : N) : bool :=
  between 9 13 c || (c =? 32) || (c =? 160) || (c =? 5760)
  || between 8192 8202 c || (c =? 8232) || (c =? 8233) || (c =? 8239)
  || (c =? 8287) || (c =? 12288) || (c =? 65279).

(** [[a-fA-F0-9]] *)
Definition is_hex (c : N) : bool :=
  is_digit c || between 65 70 c || between 97 102 c.

Definition even_unit (c : N) : bool := N.even c.

(** [toLowerCase] of one code unit.  The Unicode mapping is written out for
    Basic Latin, Latin-1 Supplement and Latin Extended-A (the blocks the
    tables of the source draw from); a code unit of another block is left as
    it is. *)
Definition lower_unit (c : N) : jsstring :=
  if is_upper c then [c + 32]
  else if between 192 222 c && negb (c =? 215) then [c + 32]
  else if c =? 304 then [105; 775]
  else if (between 256 303 c || between 306 311 c || between 330 375 c)
          && even_unit c then [c + 1]
  else if (between 313 328 c || between 377 382 c) && negb (even_unit c)
       then [c + 1]
  else if c =? 376 then [255]
  else [c].

Definition toLowerCase (s : jsstring) : jsstring := flat_map lower_unit s.

Fixpoint drop_space (s : jsstring) : jsstring :=
  match s with
  | c :: s' => if is_space c then drop_space s' else s
  | [] => []
  end.

(** [String.prototype.trim] *)
Definition trim (s : jsstring) : jsstring :=
  rev (drop_space (rev (drop_space s))).

Fixpoint str_eqb (a b : jsstring) : bool :=
  match a, b with
  | [], [] => true
  | x :: a', y :: b' => (x =? y) && str_eqb a' b'
  | _, _ => false
  end.

(** [s.startsWith(p)] *)
Fixpoint startsWith (s p : jsstring) {struct p} : bool :=
  match p, s with
  | [], _ => true
  | x :: p', y :: s' => (x =? y) && startsWith s' p'
  | _ :: _, [] => false
  end.

(** [s.endsWith(p)] *)
Definition endsWith (s p : jsstring) : bool := startsWith (rev s) (rev p).

(** [s.includes(p)] *)
Fixpoint includes (s p : jsstring) : bool :=
  startsWith s p ||
  match s with
  | [] => false
  | _ :: s' => includes s' p
  end.

(** [arr.includes(x)] for an array of strings. *)
Definition arr_includes (arr : list jsstring) (x : jsstring) : bool :=
  existsb (str_eqb x) arr.

(** Value of a run of decimal digits, most significant first. *)
Definition digit_val (c : N) : Z := Z.of_N (c - 48).

Fixpoint digits_value (acc : Z) (s : jsstring) : Z :=
  match s with
  | c :: s' => if is_digit c then digits_value (10 * acc + digit_val c) s'
               else acc
  | [] => acc
  end.

(** [parseInt(s)] with the default radix, on a string that does not start
    with a hexadecimal prefix: leading white space is skipped, an optional
    sign is read, then the longest run of decimal digits; [None] is [NaN].
    Every call of the source passes a capture of [\d] characters. *)
Definition parseInt (s : jsstring) : option Z :=
  let s1 := drop_space s in
  let '(neg, s2) :=
    match s1 with
    | 45 :: r => (true, r)
    | 43 :: r => (false, r)
    | _ => (false, s1)
    end in
  match s2 with
  | c :: _ => if is_digit c
              then Some (if neg then - digits_value 0 s2 else digits_value 0 s2)%Z
              else None
  | [] => None
  end.

End JS.
Export JS.

(** ** Regular expressions *)

Module Regex.

(** The constructs the patterns of the source use. *)
Inductive regex : Type :=
| Chr (c : N)                                  (* a literal character *)
| Cls (p : N -> bool)                          (* \d, \s, [...] *)
| Eps
| Seq (r1 r2 : regex)
| Alt (r1 r2 : regex)                          (* r1|r2 *)
| Rep (lo : nat) (hi : option nat) (r : regex) (* greedy r{lo,hi} *)
| Grp (k : nat) (r : regex)                    (* capture group number k *)
| Bnd                                          (* \b *)
| Bos                                          (* ^ *)
| Eos.                                         (* $ *)

(** Position of the matcher in the subject: the code unit before it (if
    any), the code units after it, and the captures made so far. *)
Record mstate : Type := MState {
  prev : option N;
  rest : jsstring;
  caps : list (nat * jsstring)
}.

(** Canonicalize of ECMA-262 for a pattern with the [i] flag and without the
    [u] flag: the upper-case mapping of one code unit, written out for Basic
    Latin and Latin-1.  The literal characters of the patterns of the source
    are ASCII characters and U+00F3; no code unit of another block
    canonicalizes to the same code unit as one of these. *)
Definition canon (c : N) : N :=
  if is_lower c then c - 32
  else if between 224 254 c && negb (c =? 247) then c - 32
  else if c =? 255 then 376
  else if c =? 181 then 924
  else c.

Definition chr_eqb (icase : bool) (c x : N) : bool :=
  if icase then canon c =? canon x else c =? x.

Definition word_before (st : mstate) : bool :=
  match prev st with Some c => is_word c | None => false end.

Definition word_after (st : mstate) : bool :=
  match rest st with c :: _ => is_word c | [] => false end.

(** The text between two positions of the same subject. *)
Definition taken (st st' : mstate) : jsstring :=
  firstn (List.length (rest st) - List.length (rest st')) (rest st).

Definition set_cap (k : nat) (v : jsstring) (st : mstate) : mstate :=
  MState (prev st) (rest st) ((k, v) :: caps st).

Definition below (hi : option nat) (n : nat) : bool :=
  match hi with Some h => (n <? h)%nat | None => true end.

Definition or_else {A} (a b : option A) : option A :=
  match a with Some _ => a | None => b end.

Section Matcher.

Variable icase : bool.
Variable R : Type.

(** A greedy quantifier over a matcher [mr] for its body: after [n]
    iterations, one more is tried first (while [n] is below [hi]), and the
    continuation is entered once [lo] iterations are done.  An iteration
    has to consume input; [fuel] bounds the iterations by the input left. *)
Fixpoint rep_loop (mr : mstate -> (mstate -> option R) -> option R)
  (lo : nat) (hi : option nat) (k : mstate -> option R)
  (fuel n : nat) (st0 : mstate) {struct fuel} : option R :=
  let stop := if (lo <=? n)%nat then k st0 else None in
  match fuel with
  | O => stop
  | S fuel' =>
      if below hi n
      then or_else
             (mr st0 (fun st1 =>
                if (List.length (rest st1) <? List.length (rest st0))%nat
                then rep_loop mr lo hi k fuel' (S n) st1 else None))
             stop
      else stop
  end.

(** Backtracking matcher in continuation-passing style: [run r st k] matches
    [r] at [st] and hands every way of doing so to [k], in priority order,
    until [k] accepts one. *)
Fixpoint run (r : regex) (st : mstate) (k : mstate -> option R) : option R :=
  match r with
  | Chr c =>
      match rest st with
      | x :: s' => if chr_eqb icase c x
                   then k (MState (Some x) s' (caps st)) else None
      | [] => None
      end
  | Cls p =>
      match rest st with
      | x :: s' => if p x then k (MState (Some x) s' (caps st)) else None
      | [] => None
      end
  | Eps => k st
  | Seq r1 r2 => run r1 st (fun st1 => run r2 st1 k)
  | Alt r1 r2 => or_else (run r1 st k) (run r2 st k)
  | Rep lo hi r1 => rep_loop (run r1) lo hi k (List.length (rest st)) O st
  | Grp g r1 => run r1 st (fun st1 => k (set_cap g (taken st st1) st1))
  | Bnd => if xorb (word_before st) (word_after st) then k st else None
  | Bos => match prev st with None => k st | Some _ => None end
  | Eos => match rest st with [] => k st | _ :: _ => None end
  end.

End Matcher.

(** *** What a match is

    The declarative reading of a pattern, against which the matcher is
    checked: [Matches icase r st st'] says that [r] can match from position
    [st] to position [st'], recording its captures. *)

Section Declarative.

Variable icase : bool.

(** [n] matches in a row. *)
Fixpoint iter (n : nat) (step : mstate -> mstate -> Prop)
  (st st' : mstate) : Prop :=
  match n with
  | O => st' = st
  | S n' => exists st1, step st st1 /\ iter n' step st1 st'
  end.

Definition at_most (hi : option nat) (n : nat) : Prop :=
  match hi with Some h => (n <= h)%nat | None => True end.

Fixpoint Matches (r : regex) (st st' : mstate) : Prop :=
  match r with
  | Chr c =>
      exists x, rest st = x :: rest st' /\ chr_eqb icase c x = true
                /\ st' = MState (Some x) (rest st') (caps st)
  | Cls p =>
      exists x, rest st = x :: rest st' /\ p x = true
                /\ st' = MState (Some x) (rest st') (caps st)
  | Eps => st' = st
  | Seq r1 r2 => exists st1, Matches r1 st st1 /\ Matches r2 st1 st'
  | Alt r1 r2 => Matches r1 st st' \/ Matches r2 st st'
  | Rep lo hi r1 =>
      exists n, (lo <= n)%nat /\ at_most hi n /\ iter n (Matches r1) st st'
  | Grp g r1 =>
      exists st1, Matches r1 st st1 /\ st' = set_cap g (taken st st1) st1
  | Bnd => st' = st /\ xorb (word_before st) (word_after st) = true
  | Bos => st' = st /\ prev st = None
  | Eos => st' = st /\ rest st = []
  end.

End Declarative.

(** The least number of code units a match of [r] consumes. *)
Fixpoint minlen (r : regex) : nat :=
  match r with
  | Chr _ | Cls _ => 1
  | Eps | Bnd | Bos | Eos => 0
  | Seq r1 r2 => minlen r1 + minlen r2
  | Alt r1 r2 => Nat.min (minlen r1) (minlen r2)
  | Rep lo _ r1 => lo * minlen r1
  | Grp _ r1 => minlen r1
  end.

(** A compiled pattern: its flags and its body. *)
Record pattern : Type := Pattern {
  p_icase : bool;      (* flag i *)
  p_global : bool;     (* flag g *)
  p_body : regex
}.

(** Result of one successful match. *)
Record rmatch : Type := RMatch {
  m_index : nat;
  m_text : jsstring;
  m_caps : list (nat * jsstring);
  m_end : mstate
}.

(** [match[k]]: the last value recorded for group [k]. *)
Fixpoint group (k : nat) (cs : list (nat * jsstring)) : option jsstring :=
  match cs with
  | (g, v) :: cs' => if (g =? k)%nat then Some v else group k cs'
  | [] => None
  end.

Definition match_at (p : pattern) (i : nat) (st : mstate) : option rmatch :=
  run (p_icase p) (p_body p) st
      (fun st' => Some (RMatch i (taken st st') (caps st') st')).

(** Leftmost match at or after a position. *)
Fixpoint search_from (p : pattern) (i : nat) (pv : option N) (s : jsstring)
  : option rmatch :=
  or_else (match_at p i (MState pv s []))
          match s with
          | c :: s' => search_from p (S i) (Some c) s'
          | [] => None
          end.

(** [RegExp.prototype.exec] from index 0: also [s.match(p)] for a pattern
    without the [g] flag. *)
Definition exec (p : pattern) (s : jsstring) : option rmatch :=
  search_from p 0 None s.

(** [p.test(s)] *)
Definition test (p : pattern) (s : jsstring) : bool :=
  match exec p s with Some _ => true | None => false end.

(** One piece of a replacement string: literal text or [$k]. *)
Inductive tpl_item : Type :=
| TLit (s : jsstring)
| TGrp (k : nat).

Definition expand (tpl : list tpl_item) (m : rmatch) : jsstring :=
  flat_map (fun it => match it with
                      | TLit s => s
                      | TGrp k => match group k (m_caps m) with
                                  | Some v => v
                                  | None => []
                                  end
                      end) tpl.

(** The scan shared by [s.match(p)] and [s.replace(p, tpl)] for a pattern
    with the [g] flag: matches are taken left to right, each search starting
    where the previous match ended (one code unit further after an empty
    match).  [on_match] and [on_unit] say what a match and a skipped code
    unit contribute. *)
Section Scan.

Variable A : Type.
Variable p : pattern.
Variable on_match : rmatch -> list A.
Variable on_unit : N -> list A.

Fixpoint scan (fuel : nat) (i : nat) (pv : option N) (s : jsstring) : list A :=
  match fuel with
  | O => []
  | S fuel' =>
      match match_at p i (MState pv s []) with
      | Some m =>
          let st' := m_end m in
          if (List.length (rest st') <? List.length s)%nat
          then on_match m ++
               scan fuel' (i + List.length (m_text m)) (prev st') (rest st')
          else on_match m ++
               match s with
               | c :: s' => on_unit c ++ scan fuel' (S i) (Some c) s'
               | [] => []
               end
      | None =>
          match s with
          | c :: s' => on_unit c ++ scan fuel' (S i) (Some c) s'
          | [] => []
          end
      end
  end.

End Scan.

(** [s.match(p)] for a pattern with the [g] flag: the matched texts
    ([None] is [null], when there is no match). *)
Definition match_all (p : pattern) (s : jsstring) : option (list jsstring) :=
  match scan p (fun m => [m_text m]) (fun _ => []) (S (List.length s)) 0 None s with
  | [] => None
  | ms => Some ms
  end.

(** [s.replace(p, tpl)]: every match when [p] has the [g] flag, the first
    one otherwise. *)
Definition replace (p : pattern) (tpl : list tpl_item) (s : jsstring)
  : jsstring :=
  if p_global p
  then scan p (expand tpl) (fun c => [c]) (S (List.length s)) 0 None s
  else match exec p s with
       | Some m => firstn (m_index m) s ++ expand tpl m ++ rest (m_end m)
       | None => s
       end.

(** [s.split(p)] for a pattern without capture groups (SplitMatcher of
    ECMA-262): [p] is tried at every position before the end; a match that
    ends where the current piece starts is skipped; [cur] is the current
    piece, reversed. *)
Fixpoint split_loop (p : pattern) (fuel : nat) (cur : jsstring)
  (pv : option N) (s : jsstring) : list jsstring :=
  match fuel with
  | O => [rev cur]
  | S fuel' =>
      match s with
      | [] => [rev cur]
      | c :: s' =>
          match match_at p 0 (MState pv s []) with
          | Some m =>
              let st' := m_end m in
              if (List.length (rest st') <? List.length s)%nat
                 || match cur with [] => false | _ :: _ => true end
              then rev cur :: split_loop p fuel' [] (prev st') (rest st')
              else split_loop p fuel' (c :: cur) (Some c) s'
          | None => split_loop p fuel' (c :: cur) (Some c) s'
          end
      end
  end.

Definition split (p : pattern) (s : jsstring) : list jsstring :=
  match s with
  | [] => match match_at p 0 (MState None [] []) with
          | Some _ => []
          | None => [[]]
          end
  | _ :: _ => split_loop p (S (2 * List.length s)) [] None s
  end.

(** The code unit before the position reached after reading [w]. *)
Fixpoint last_of (w : jsstring) (pv : option N) : option N :=
  match w with
  | [] => pv
  | x :: w' => last_of w' (Some x)
  end.

(** A literal run of characters. *)
Fixpoint lit (s : jsstring) : regex :=
  match s with
  | [] => Eps
  | [c] => Chr c
  | c :: s' => Seq (Chr c) (lit s')
  end.

Definition plus (r : regex) : regex := Rep 1 None r.
Definition star (r : regex) : regex := Rep 0 None r.
Definition opt (r : regex) : regex := Rep 0 (Some 1%nat) r.
Definition times (lo hi : nat) (r : regex) : regex := Rep lo (Some hi) r.

End Regex.
Export Regex.

Declare Scope re_scope.
Delimit Scope re_scope with re.
Infix ">->" := Seq (at level 41, right associativity) : re_scope.

(** ** Constants and type guards *)

Module Config.

Definition MAX_EPISODE_NUMBER : Z := 9999.
Definition MIN_EPISODE_NUMBER : Z := 1.
Definition MAX_YEAR : Z := 2000.
Definition COMMON_RESOLUTIONS : list Z := [480; 720; 1080]%Z.
Definition MAX_BATCH_EPISODES : Z := 999.

Definition CACHE_TTL_MS : Z := 5 * 60 * 1000.
Definition MAX_CACHE_SIZE : nat := 100.

End Config.

Module Patterns.

Local Open Scope re_scope.

Definition digit := Cls is_digit.
Definition space := Cls is_space.
Definition c (a : ascii) : regex := Chr (ch a).

(** [/btih:([a-fA-F0-9]{40})/i] *)
Definition INFO_HASH : pattern :=
  Pattern true false (lit (js "btih:") >-> Grp 1 (times 40 40 (Cls is_hex))).

(** [/^[a-fA-F0-9]{40}$/] *)
Definition INFO_HASH_ONLY : pattern :=
  Pattern false false (Bos >-> times 40 40 (Cls is_hex) >-> Eos).

(** [/\b(\d{3,4}p)\b/i] *)
Definition RESOLUTION : pattern :=
  Pattern true false (Bnd >-> Grp 1 (times 3 4 digit >-> c "p") >-> Bnd).

(** [/\b(\d{2,3})\s*[-~]\s*(\d{2,3})\b/] *)
Definition EPISODE_RANGE : pattern :=
  Pattern false false
    (Bnd >-> Grp 1 (times 2 3 digit) >-> star space
         >-> Cls (fun x => (x =? ch "-") || (x =? ch "~"))
         >-> star space >-> Grp 2 (times 2 3 digit) >-> Bnd).

(** [/S(\d+)E(\d+)/i] *)
Definition SEASON_EPISODE : pattern :=
  Pattern true false
    (c "S" >-> Grp 1 (plus digit) >-> c "E" >-> Grp 2 (plus digit)).

(** [/\s-\s(\d{1,4})\s/] *)
Definition EPISODE_DASH : pattern :=
  Pattern false false
    (space >-> c "-" >-> space >-> Grp 1 (times 1 4 digit) >-> space).

(** [/\b(\d{1,4})\b/g] *)
Definition EPISODE_NUMBER : pattern :=
  Pattern false true (Bnd >-> Grp 1 (times 1 4 digit) >-> Bnd).

(** [/epis\u00f3dio\s+(\d+)/i] *)
Definition PORTUGUESE : pattern :=
  Pattern true false
    (lit (js "epis" ++ [243] ++ js "dio") >-> plus space >-> Grp 1 (plus digit)).

(** [/(?:ep|episode)\s*(\d+)/i] *)
Definition ENGLISH : pattern :=
  Pattern true false
    (Alt (lit (js "ep")) (lit (js "episode")) >-> star space
       >-> Grp 1 (plus digit)).

(** [/\bs\d+\b/] *)
Definition SEASON_ONLY : pattern :=
  Pattern false false (Bnd >-> c "s" >-> plus digit >-> Bnd).

(** [/\bs\d+e\d+\b/] *)
Definition SEASON_WITH_EPISODE : pattern :=
  Pattern false false
    (Bnd >-> c "s" >-> plus digit >-> c "e" >-> plus digit >-> Bnd).

(** [/\s-\s\d{1,3}(\s|$)/] *)
Definition SINGLE_EPISODE : pattern :=
  Pattern false false
    (space >-> c "-" >-> space >-> times 1 3 digit >-> Grp 1 (Alt space Eos)).

End Patterns.

Module Guards.

(** [isValidMagnetLink]: the prefix [magnet:?] and more than 20 code units. *)
Definition isValidMagnetLink (link : jsstring) : bool :=
  startsWith link (js "magnet:?") && (20 <? List.length link)%nat.

Definition isValidInfoHash (hash : jsstring) : bool :=
  test Patterns.INFO_HASH_ONLY hash.

Definition isValidEpisodeNumber (num : Z) : bool :=
  (Config.MIN_EPISODE_NUMBER <=? num)%Z && (num <=? Config.MAX_EPISODE_NUMBER)%Z.

Definition isNormalizedString (str : jsstring) : bool :=
  (0 <? List.length str)%nat.

End Guards.
Export Guards.

(** ** TorrentParser *)

Module TorrentParser.

Import Patterns Config.

(** [match?.[1]] *)
Definition group1 (m : option rmatch) : option jsstring :=
  match m with Some mt => group 1 (m_caps mt) | None => None end.

(** [extractInfoHash]: [""] for a link that is not a magnet link, else the
    first capture of INFO_HASH when there is one and it is a valid hash. *)
Definition extractInfoHash (magnetLink : jsstring) : jsstring :=
  if negb (isValidMagnetLink magnetLink) then []
  else
    match group1 (exec INFO_HASH magnetLink) with
    | Some hash =>
        (* [hash && isValidInfoHash(hash)]: the empty string is falsy *)
        if (0 <? List.length hash)%nat && isValidInfoHash hash then hash else []
    | None => []
    end.

Definition validResolutions : list jsstring :=
  [js "480p"; js "720p"; js "1080p"; js "1440p"; js "4K"].

(** [parseResolution]: [validResolutions.includes(undefined)] is false. *)
Definition parseResolution (name : jsstring) : jsstring :=
  match group1 (exec RESOLUTION name) with
  | Some resolution =>
      if arr_includes validResolutions resolution then resolution else []
  | None => []
  end.

Definition is_some {A} (o : option A) : bool :=
  match o with Some _ => true | None => false end.

(** The second rule of [isBatchTorrent]: a range [NN-NN] with
    [end > start], [start >= 1] and [end <= 999]. *)
Definition rangeRule (name : jsstring) : bool :=
  match exec EPISODE_RANGE name with
  | Some rangeMatch =>
      match group 1 (m_caps rangeMatch), group 2 (m_caps rangeMatch) with
      | Some g1, Some g2 =>
          match parseInt g1, parseInt g2 with
          | Some start, Some end_ =>
              (start <? end_)%Z && (MIN_EPISODE_NUMBER <=? start)%Z
              && (end_ <=? MAX_BATCH_EPISODES)%Z
          | _, _ => false
          end
      | _, _ => false
      end
  | None => false
  end.

Definition isBatchTorrent (name episodeTitle : jsstring) : bool :=
  let lowerName := toLowerCase name in
  let lowerTitle := toLowerCase episodeTitle in
  (* Explicit batch indicators *)
  if includes lowerName (js "batch")
     || includes lowerName (js "complete")
     || includes lowerTitle (js "~")
  then true
  (* Episode ranges validation *)
  else if rangeRule name then true
  (* Season without episode patterns *)
  else if is_some (exec SEASON_ONLY lowerName)
          && negb (is_some (exec SEASON_WITH_EPISODE lowerName))
  then true
  (* Individual episodes are NOT batches *)
  else if is_some (exec SINGLE_EPISODE name) then false
  else false.

(** [isBatchTorrent] with its last rule (SINGLE_EPISODE, "Individual
    episodes are NOT batches") taken out: the three batch rules, then the
    default. *)
Definition isBatchTorrent_without_single_episode_rule
  (name episodeTitle : jsstring) : bool :=
  let lowerName := toLowerCase name in
  let lowerTitle := toLowerCase episodeTitle in
  if includes lowerName (js "batch")
     || includes lowerName (js "complete")
     || includes lowerTitle (js "~")
  then true
  else if rangeRule name then true
  else if is_some (exec SEASON_ONLY lowerName)
          && negb (is_some (exec SEASON_WITH_EPISODE lowerName))
  then true
  else false.

(** [tryExtractFromPattern]: [None] is [null]. *)
Definition tryExtractFromPattern (text : jsstring) (p : pattern) : option Z :=
  match exec p text with
  | Some mt =>
      match group 1 (m_caps mt) with
      | Some g =>
          match parseInt g with
          | Some num => if isValidEpisodeNumber num then Some num else None
          | None => None
          end
      | None => None
      end
  | None => None
  end.

Definition tryExtractFromSeasonEpisode (name : jsstring) : option Z :=
  match exec SEASON_EPISODE name with
  | Some mt =>
      match group 2 (m_caps mt) with
      | Some g =>
          match parseInt g with
          | Some episodeNum =>
              if isValidEpisodeNumber episodeNum then Some episodeNum else None
          | None => None
          end
      | None => None
      end
  | None => None
  end.

Definition isValidEpisodeForIsolation (num : Z) : bool :=
  isValidEpisodeNumber num
  && negb (existsb (Z.eqb num) COMMON_RESOLUTIONS)
  && (num <? MAX_YEAR)%Z.

(** The loop of [tryExtractFromIsolatedNumbers] over the matches. *)
Fixpoint firstIsolated (matches : list jsstring) : option Z :=
  match matches with
  | numStr :: more =>
      match parseInt numStr with
      | Some num => if isValidEpisodeForIsolation num then Some num
                    else firstIsolated more
      | None => firstIsolated more
      end
  | [] => None
  end.

Definition tryExtractFromIsolatedNumbers (name : jsstring) : option Z :=
  match match_all EPISODE_NUMBER name with
  | Some matches => firstIsolated matches
  | None => None
  end.

(** The strategies of [extractEpisodeNumber], in their priority order. *)
Definition extractionStrategies (name episodeTitle : jsstring)
  : list (unit -> option Z) :=
  [ fun _ => tryExtractFromPattern episodeTitle PORTUGUESE;
    fun _ => tryExtractFromPattern name EPISODE_DASH;
    fun _ => tryExtractFromSeasonEpisode name;
    fun _ => tryExtractFromPattern name ENGLISH;
    fun _ => tryExtractFromIsolatedNumbers name ].

(** The [for] loop over the strategies: the first result that is not
    [null], or [-1]. *)
Fixpoint firstResult (strategies : list (unit -> option Z)) : Z :=
  match strategies with
  | strategy :: more =>
      match strategy tt with
      | Some result => result
      | None => firstResult more
      end
  | [] => (-1)%Z
  end.

Definition extractEpisodeNumber (name episodeTitle : jsstring) : Z :=
  if isBatchTorrent name episodeTitle then (-1)%Z
  else firstResult (extractionStrategies name episodeTitle).

End TorrentParser.

(** ** The first info hash of a text

    What [extractInfoHash] is expected to find, stated without the regular
    expression: the 40 hexadecimal digits that follow the first [btih:], in
    any letter case, that 40 hexadecimal digits follow. *)

Module FirstHash.

(** [tag] is the text [btih:], each letter in either case. *)
Definition is_btih (tag : jsstring) : bool :=
  str_eqb (map canon tag) (map canon (js "btih:")).

(** The 40 hexadecimal digits after a [btih:] at the head of [s]. *)
Definition hash_here (s : jsstring) : option jsstring :=
  let h := firstn 40 (skipn 5 s) in
  if is_btih (firstn 5 s) && (List.length h =? 40)%nat && forallb is_hex h
  then Some h else None.

(** The hash at the leftmost position that has one. *)
Fixpoint first_hash (s : jsstring) : option jsstring :=
  match hash_here s with
  | Some h => Some h
  | None =>
      match s with
      | [] => None
      | _ :: s' => first_hash s'
      end
  end.

End FirstHash.

(** ** JavaScript numbers *)

Module Num.

Definition num := float.

(** The number that holds an integer (exact below 2^53 in magnitude). *)
Definition num_of_Z (z : Z) : num :=
  match z with
  | Z0 => 0%float
  | Zpos _ => PrimFloat.of_uint63 (Uint63.of_Z z)
  | Zneg q => (- PrimFloat.of_uint63 (Uint63.of_Z (Zpos q)))%float
  end.

(** [z > x] for a number [z] that holds an integer and a number [x]: the
    comparison of their real values; false when [x] is [NaN]. *)
Definition Z_gtb_num (z : Z) (x : num) : bool :=
  match Prim2SF x with
  | S754_nan => false
  | S754_infinity s => s
  | S754_zero _ => (0 <? z)%Z
  | S754_finite s m e =>
      let v := if s then Zneg m else Zpos m in
      if (0 <=? e)%Z then (v * 2 ^ e <? z)%Z else (v <? z * 2 ^ (- e))%Z
  end.

(** [Math.round]: the nearest integer, a tie going up; [NaN], the
    infinities and the zeros are returned as they are, and a result that is
    zero keeps the sign of the argument. *)
Definition Math_round (x : num) : num :=
  match Prim2SF x with
  | S754_finite s m e =>
      if (0 <=? e)%Z then x
      else
        let v := if s then Zneg m else Zpos m in
        let r := ((2 * v + 2 ^ (- e)) / 2 ^ (1 - e))%Z in
        if (r =? 0)%Z then (if s then (-0)%float else 0%float)
        else num_of_Z r
  | _ => x
  end.

(** [Math.max] of two numbers: [NaN] if either is, and [+0] above [-0]. *)
Definition Math_max (x y : num) : num :=
  if PrimFloat.is_nan x || PrimFloat.is_nan y then PrimFloat.nan
  else if (x <? y)%float then y
  else if (y <? x)%float then x
  else if PrimFloat.get_sign x then y else x.

End Num.
Export Num.

(** ** PerformanceCache *)

Module PerformanceCache.

Import Config.

(** The metrics are numbers. *)
Record PerformanceMetrics : Type := Metrics {
  searchTime : num;
  parseTime : num;
  cacheHits : num;
  cacheMisses : num;
  fuzzyMatchCount : num
}.

Definition initialMetrics : PerformanceMetrics :=
  Metrics 0%float 0%float 0%float 0%float 0%float.

(** [x++] on a number: the binary64 sum of [x] and 1. *)
Definition incr (x : num) : num := (x + 1)%float.

(** [/\s+/g] *)
Definition WS_RUN : pattern := Pattern false true (plus (Cls is_space)).

(** [createCacheKey]: lower-cased, each run of white space replaced by an
    underscore. *)
Definition createCacheKey (key : jsstring) : jsstring :=
  replace WS_RUN [TLit (js "_")] (toLowerCase key).

Section Store.

(** The cached data ([CacheEntry<any>]). *)
Variable T : Type.

Record CacheEntry : Type := Entry {
  data : T;
  timestamp : Z;
  key : jsstring
}.

(** A [Map] keeps its entries in insertion order: the first pair is the
    oldest key. *)
Definition JSMap := list (jsstring * CacheEntry).

Fixpoint map_get (k : jsstring) (m : JSMap) : option CacheEntry :=
  match m with
  | (k', e) :: m' => if str_eqb k' k then Some e else map_get k m'
  | [] => None
  end.

(** [Map.prototype.set]: a key that is present keeps its place. *)
Fixpoint map_set (k : jsstring) (e : CacheEntry) (m : JSMap) : JSMap :=
  match m with
  | (k', e') :: m' =>
      if str_eqb k' k then (k', e) :: m' else (k', e') :: map_set k e m'
  | [] => [(k, e)]
  end.

Definition map_delete (k : jsstring) (m : JSMap) : JSMap :=
  filter (fun ke => negb (str_eqb (fst ke) k)) m.

(** [map.keys().next().value]: [None] is [undefined]. *)
Definition first_key (m : JSMap) : option jsstring :=
  match m with
  | (k, _) :: _ => Some k
  | [] => None
  end.

Record state : Type := State {
  _cache : JSMap;
  _metrics : PerformanceMetrics
}.

Definition with_metrics (f : PerformanceMetrics -> PerformanceMetrics)
  (st : state) : state :=
  State (_cache st) (f (_metrics st)).

Definition miss (m : PerformanceMetrics) : PerformanceMetrics :=
  Metrics (searchTime m) (parseTime m) (cacheHits m) (incr (cacheMisses m))
          (fuzzyMatchCount m).

Definition hit (m : PerformanceMetrics) : PerformanceMetrics :=
  Metrics (searchTime m) (parseTime m) (incr (cacheHits m)) (cacheMisses m)
          (fuzzyMatchCount m).

(** [get]: [now] is the value of [Date.now()]; [None] is [null]. *)
Definition get (k : jsstring) (now : Z) (st : state) : option T * state :=
  let cacheKey := createCacheKey k in
  match map_get cacheKey (_cache st) with
  | None => (None, with_metrics miss st)
  | Some entry =>
      if (CACHE_TTL_MS <? now - timestamp entry)%Z
      then (None, State (map_delete cacheKey (_cache st)) (miss (_metrics st)))
      else (Some (data entry), with_metrics hit st)
  end.

(** The eviction at the head of [set]: [if (firstKey)] is false for
    [undefined] and for the empty string. *)
Definition evict (m : JSMap) : JSMap :=
  if (MAX_CACHE_SIZE <=? List.length m)%nat
  then match first_key m with
       | Some firstKey =>
           match firstKey with
           | [] => m
           | _ :: _ => map_delete firstKey m
           end
       | None => m
       end
  else m.

Definition set (k : jsstring) (d : T) (now : Z) (st : state) : state :=
  let cache1 := evict (_cache st) in
  let cacheKey := createCacheKey k in
  let entry := Entry d now cacheKey in
  State (map_set cacheKey entry cache1) (_metrics st).

Definition getMetrics (st : state) : PerformanceMetrics := _metrics st.

Definition incrementFuzzyCount (st : state) : state :=
  with_metrics (fun m => Metrics (searchTime m) (parseTime m) (cacheHits m)
                                 (cacheMisses m) (incr (fuzzyMatchCount m)))
               st.

End Store.

(** The keys of a map, oldest first. *)
Definition keys {T} (m : JSMap T) : list jsstring := map fst m.

(** A decidable check that the strings of a list are distinct. *)
Fixpoint distinctb (l : list jsstring) : bool :=
  match l with
  | [] => true
  | x :: l' => negb (existsb (str_eqb x) l') && distinctb l'
  end.

(** A run of [set] calls from the empty cache: entry [i] is stored at time
    [i] under the key ["k"] followed by three decimal digits. *)
Definition key_of (i : nat) : jsstring :=
  js "k" ++ [48 + N.of_nat (i / 100); 48 + N.of_nat ((i / 10) mod 10);
             48 + N.of_nat (i mod 10)].

Definition filled (n : nat) : state nat :=
  fold_left (fun st i => set (key_of i) i (Z.of_nat i) st) (seq 0 n)
            (State [] initialMetrics).

End PerformanceCache.

(** ** StringNormalizer *)

Module StringNormalizer.

Import Patterns.
Local Open Scope re_scope.

(** The entries of [CHARACTER_NORMALIZATIONS], in the order of
    [Object.entries]. *)
Definition CHARACTER_NORMALIZATIONS : list (jsstring * jsstring) :=
  [ ([225], js "a"); ([224], js "a"); ([226], js "a"); ([227], js "a");
    ([228], js "a");
    ([233], js "e"); ([232], js "e"); ([234], js "e"); ([235], js "e");
    ([237], js "i"); ([236], js "i"); ([238], js "i"); ([239], js "i");
    ([243], js "o"); ([242], js "o"); ([244], js "o"); ([245], js "o");
    ([246], js "o");
    ([250], js "u"); ([249], js "u"); ([251], js "u"); ([252], js "u");
    ([231], js "c"); ([241], js "n");
    ([333], js "o"); ([363], js "u"); ([257], js "a"); ([275], js "e");
    ([299], js "i");
    ([12288], js " "); ([9], js " "); ([10], js " "); ([13], js " ") ].

Record variation : Type := Variation {
  from : pattern;
  to : list tpl_item
}.

Definition compound (a b : string) : variation :=
  Variation (Pattern true true (lit (js a) >-> plus space >-> lit (js b)))
            [TLit (js a ++ js b)].

Definition collapse (a : string) (b : string) : variation :=
  Variation (Pattern false true (lit (js a))) [TLit (js b)].

(** [ANIME_TITLE_VARIATIONS.patterns] *)
Definition ANIME_TITLE_VARIATIONS : list variation :=
  [ compound "mahou" "tsukai";
    compound "maho" "tsukai";
    compound "seirei" "tsukai";
    compound "ken" "shi";
    compound "yuu" "sha";
    collapse "ou" "o";
    collapse "uu" "u";
    collapse "ei" "e";
    (* /season\s*(\d+)/gi, 'S$1' *)
    Variation (Pattern true true
                 (lit (js "season") >-> star space >-> Grp 1 (plus digit)))
              [TLit (js "S"); TGrp 1];
    (* /episod[ei]o?\s*(\d+)/gi, 'E$1' *)
    Variation (Pattern true true
                 (lit (js "episod")
                    >-> Cls (fun x => (x =? ch "e") || (x =? ch "i")
                                     || (x =? ch "E") || (x =? ch "I"))
                    >-> opt (c "o") >-> star space >-> Grp 1 (plus digit)))
              [TLit (js "E"); TGrp 1] ].

(** [new RegExp(from, 'g')] for a key of the character table. *)
Definition key_pattern (k : jsstring) : pattern := Pattern false true (lit k).

Definition WS_RUN : pattern := PerformanceCache.WS_RUN.

Definition fold_characters (s : jsstring) : jsstring :=
  fold_left (fun result ft => replace (key_pattern (fst ft)) [TLit (snd ft)] result)
            CHARACTER_NORMALIZATIONS s.

Definition fold_variations (s : jsstring) : jsstring :=
  fold_left (fun result v => replace (from v) (to v) result)
            ANIME_TITLE_VARIATIONS s.

Definition normalize (input : jsstring) : jsstring :=
  let result := trim (toLowerCase input) in
  (* Apply character normalizations *)
  let result := fold_characters result in
  (* Apply anime-specific normalizations *)
  let result := fold_variations result in
  (* Normalize whitespace *)
  trim (replace WS_RUN [TLit (js " ")] result).

Definition is_bracket (x : N) : bool :=
  existsb (N.eqb x) (js "[](){}").

(** [clean] *)
Definition clean (input : jsstring) : jsstring :=
  let r := replace (Pattern false true (Cls is_bracket)) [] input in
  let r := replace (Pattern false true
                      (Cls (fun x => negb (is_word x || is_space x
                                           || (x =? ch "-"))))) [] r in
  trim (replace WS_RUN [TLit (js " ")] r).

End StringNormalizer.

(** ** Normal forms

    The notions in which the effect of [normalize] is stated: direct
    readings of its replacement steps, and what its result looks like. *)

Module NormalForm.

Import StringNormalizer.

(** [s.replace(/c/g, to)] for one code unit [c], read code unit by code
    unit. *)
Definition subst_char (c : N) (to : jsstring) (s : jsstring) : jsstring :=
  flat_map (fun x => if x =? c then to else [x]) s.

(** [s.replace(/\s+/g, ' ')], read code unit by code unit: [in_run] says
    that the previous code unit was white space. *)
Fixpoint squeeze (in_run : bool) (s : jsstring) : jsstring :=
  match s with
  | [] => []
  | x :: s' =>
      if is_space x
      then if in_run then squeeze true s' else 32 :: squeeze true s'
      else x :: squeeze false s'
  end.

Definition head_space (s : jsstring) : bool :=
  match s with
  | x :: _ => is_space x
  | [] => false
  end.

(** Every white-space code unit is a space that no white space follows. *)
Fixpoint single_spaced (s : jsstring) : bool :=
  match s with
  | [] => true
  | x :: s' =>
      (if is_space x then (x =? 32) && negb (head_space s') else true)
      && single_spaced s'
  end.

(** The character table with its one-unit keys as code units, and the
    loop of [normalize] over it read through [subst_char]. *)
Definition CHAR_TABLE : list (N * jsstring) :=
  map (fun ft => (hd 0 (fst ft), snd ft)) CHARACTER_NORMALIZATIONS.

Definition fold_table (tbl : list (N * jsstring)) (s : jsstring) : jsstring :=
  fold_left (fun r ct => subst_char (fst ct) (snd ct) r) tbl s.

(** A code unit that is a key of [CHARACTER_NORMALIZATIONS]. *)
Definition is_key (x : N) : bool := existsb (N.eqb x) (map fst CHAR_TABLE).

Definition no_key (x : N) : bool := negb (is_key x).

(** None of the patterns of [ANIME_TITLE_VARIATIONS] matches in [s]. *)
Definition no_variation (s : jsstring) : bool :=
  forallb (fun v => negb (test (from v) s)) ANIME_TITLE_VARIATIONS.

(** All the captures of a match are made of code units that satisfy [q]. *)
Definition caps_ok (q : N -> bool) (cs : list (nat * jsstring)) : Prop :=
  Forall (fun kv => forallb q (snd kv) = true) cs.

Definition state_ok (q : N -> bool) (st : mstate) : Prop :=
  forallb q (rest st) = true /\ caps_ok q (caps st).

(** The literal text of a replacement string. *)
Definition tpl_ok (q : N -> bool) (tpl : list tpl_item) : Prop :=
  Forall (fun it => match it with
                    | TLit l => forallb q l = true
                    | TGrp _ => True
                    end) tpl.

End NormalForm.

(** ** LevenshteinCalculator *)

Module LevenshteinCalculator.

(** [arr[i] = v] on a JavaScript array: an index below the length
    overwrites, the index equal to the length appends, a larger index would
    leave holes (shown as [d]; the loops below never do that). *)
Fixpoint arr_set {A} (d : A) (i : nat) (v : A) (arr : list A) : list A :=
  match i, arr with
  | O, [] => [v]
  | O, _ :: arr' => v :: arr'
  | S i', [] => d :: arr_set d i' v []
  | S i', x :: arr' => x :: arr_set d i' v arr'
  end.

Definition matrix_t := list (list Z).

(** [matrix[i][j]] *)
Definition get2 (matrix : matrix_t) (i j : nat) : Z :=
  nth j (nth i matrix []) 0%Z.

(** [matrix[i][j] = v] *)
Definition set2 (i j : nat) (v : Z) (matrix : matrix_t) : matrix_t :=
  arr_set [] i (arr_set 0%Z j v (nth i matrix [])) matrix.

(** [for (let i = lo; i <= hi; i++) body] over a state. *)
Definition for_range {S} (lo hi : nat) (body : nat -> S -> S) (s : S) : S :=
  fold_left (fun acc i => body i acc) (seq lo (Datatypes.S hi - lo)) s.

(** [s.charAt(i)]: [None] is the empty string past the end. *)
Definition charAt (s : jsstring) (i : nat) : option N := nth_error s i.

Definition char_eqb (x y : option N) : bool :=
  match x, y with
  | Some c, Some d => c =? d
  | None, None => true
  | _, _ => false
  end.

Definition isValidStringDistance (distance : Z) : bool := (0 <=? distance)%Z.

(** The body of the inner loop: the value stored at [matrix[i][j]]. *)
Definition cell (a b : jsstring) (matrix : matrix_t) (i j : nat) : Z :=
  if char_eqb (charAt b (i - 1)) (charAt a (j - 1))
  then get2 matrix (i - 1) (j - 1)
  else Z.min (get2 matrix (i - 1) (j - 1) + 1)        (* substitution *)
             (Z.min (get2 matrix i (j - 1) + 1)        (* insertion *)
                    (get2 matrix (i - 1) j + 1)).      (* deletion *)

Definition init_rows (bLen : nat) : matrix_t :=
  for_range 0 bLen (fun i m => arr_set [] i [Z.of_nat i] m) [].

Definition init_cols (aLen : nat) (matrix : matrix_t) : matrix_t :=
  for_range 0 aLen (fun j m => set2 0 j (Z.of_nat j) m) matrix.

Definition fill (a b : jsstring) (matrix : matrix_t) : matrix_t :=
  for_range 1 (List.length b)
    (fun i m => for_range 1 (List.length a)
                  (fun j m' => set2 i j (cell a b m' i j) m') m)
    matrix.

Definition calculate (a b : jsstring) : Z :=
  let aLen := List.length a in
  let bLen := List.length b in
  (* Initialize matrix *)
  let matrix := init_cols aLen (init_rows bLen) in
  (* Calculate distances *)
  let matrix := fill a b matrix in
  let distance := get2 matrix bLen aLen in
  if isValidStringDistance distance then distance else 0%Z.

(** [calculateSimilarity] *)
Definition calculateSimilarity (a b : jsstring) (distance : Z) : num :=
  let maxLen := Z.of_nat (Nat.max (List.length a) (List.length b)) in
  if (maxLen =? 0)%Z then 1%float
  else Math_max 0%float
         (num_of_Z (maxLen - distance) / num_of_Z maxLen)%float.

End LevenshteinCalculator.

(** ** The classic unit-cost edit distance

    The distance the specification asks [calculate] to be, stated without
    the matrix: scripts of single-character edits, and the recursive
    distance. *)

Module EditDistance.

(** [edit n x y]: [x] is turned into [y] by a script of [n] insertions,
    deletions and substitutions, each of cost 1. *)
Inductive edit : nat -> jsstring -> jsstring -> Prop :=
| edit_nil : edit 0 [] []
| edit_keep : forall c x y n, edit n x y -> edit n (c :: x) (c :: y)
| edit_subst : forall c d x y n, edit n x y -> edit (S n) (c :: x) (d :: y)
| edit_delete : forall c x y n, edit n x y -> edit (S n) (c :: x) y
| edit_insert : forall d x y n, edit n x y -> edit (S n) x (d :: y).

(** A script of at most [n] edits. *)
Definition within (n : nat) (x y : jsstring) : Prop :=
  exists k : nat, (k <= n)%nat /\ edit k x y.

(** The recursive distance, with the same shortcut as the source: equal
    heads cost nothing and take the diagonal. *)
Fixpoint lev (x : jsstring) : jsstring -> nat :=
  match x with
  | [] => fun y => List.length y
  | c :: x' =>
      fix lev_cx (y : jsstring) : nat :=
        match y with
        | [] => S (List.length x')
        | d :: y' =>
            if c =? d then lev x' y'
            else S (Nat.min (lev x' y') (Nat.min (lev_cx y') (lev x' y)))
        end
  end.

End EditDistance.

(** The table [calculate] is expected to build: the cell of row [i] and
    column [j] is the distance between the first [i] code units of [b] and
    the first [j] code units of [a]. *)
Module DistanceTable.

Import EditDistance.

Section Table.

Variables a b : jsstring.

Definition D (i j : nat) : Z :=
  Z.of_nat (lev (rev (firstn i b)) (rev (firstn j a))).

(** The first [len] cells of row [i]. *)
Definition spec_row (i len : nat) : list Z := map (D i) (seq 0 len).

(** Row [i] as the first loop leaves it. *)
Definition stub (i : nat) : list Z := [Z.of_nat i].

Definition full_row (i : nat) : list Z := spec_row i (S (List.length a)).

End Table.

End DistanceTable.

(** ** FuzzyStringMatcher *)

Module FuzzyStringMatcher.

Import StringNormalizer.

Record Weights : Type := MkWeights {
  exact : num;
  fuzzy : num;
  normalized : num;
  phonetic : num
}.

Record FuzzyMatchConfig : Type := MkConfig {
  maxDistance : num;
  minSimilarity : num;
  weights : Weights
}.

Definition FUZZY_MATCH_CONFIG : FuzzyMatchConfig :=
  MkConfig 5%float 0.6%float (MkWeights 100%float 80%float 70%float 60%float).

Definition isFuzzyScore (score : num) : bool :=
  (0 <=? score)%float && (score <=? 100)%float.

Definition normalize := StringNormalizer.normalize.

Definition exactMatch (query target : jsstring) (weight : num) : num :=
  let queryNorm := trim (toLowerCase query) in
  let targetNorm := trim (toLowerCase target) in
  if str_eqb queryNorm targetNorm then weight
  else if includes targetNorm queryNorm then (weight * 0.8)%float
  else if includes queryNorm targetNorm then (weight * 0.7)%float
  else 0%float.

Definition fuzzyMatch (query target : jsstring) (config : FuzzyMatchConfig)
  : num :=
  let distance := LevenshteinCalculator.calculate query target in
  if Z_gtb_num distance (maxDistance config) then 0%float
  else
    let similarity :=
      LevenshteinCalculator.calculateSimilarity query target distance in
    if (similarity <? minSimilarity config)%float then 0%float
    else Math_round (similarity * fuzzy (weights config))%float.

Definition normalizedMatch (query target : jsstring) (weight : num) : num :=
  let queryNorm := normalize query in
  let targetNorm := normalize target in
  if str_eqb queryNorm targetNorm then weight
  else if includes targetNorm queryNorm then (weight * 0.8)%float
  else if includes queryNorm targetNorm then (weight * 0.7)%float
  else
    (* Try with cleaned versions (removing special characters) *)
    let queryClean := clean queryNorm in
    let targetClean := clean targetNorm in
    if str_eqb queryClean targetClean then (weight * 0.6)%float
    else if includes targetClean queryClean then (weight * 0.5)%float
    else 0%float.

(** [toPhonetic] *)
Definition toPhonetic (input : jsstring) : jsstring :=
  let r := toLowerCase input in
  let r := replace (Pattern false true (lit (js "ou"))) [TLit (js "o")] r in
  let r := replace (Pattern false true (lit (js "uu"))) [TLit (js "u")] r in
  let r := replace (Pattern false true (lit (js "ei"))) [TLit (js "e")] r in
  let r := replace (Pattern false true
                      (Cls (fun x => negb (is_lower x || is_digit x
                                           || is_space x)))) [] r in
  let r := replace WS_RUN [] r in
  trim r.

Definition phoneticMatch (query target : jsstring) (weight : num) : num :=
  let queryPhonetic := toPhonetic query in
  let targetPhonetic := toPhonetic target in
  if str_eqb queryPhonetic targetPhonetic then weight
  else if includes targetPhonetic queryPhonetic then (weight * 0.7)%float
  else 0%float.

(** The [for] loop of [match] over the strategies: the best score so far,
    leaving the loop as soon as a strategy scores exactly 100. *)
Fixpoint best_of (strategies : list (unit -> num)) (bestScore : num) : num :=
  match strategies with
  | strategy :: more =>
      let score := strategy tt in
      let bestScore' := if (bestScore <? score)%float then score
                        else bestScore in
      if (score =? 100)%float then bestScore' else best_of more bestScore'
  | [] => bestScore
  end.

Definition strategies (query target : jsstring) (config : FuzzyMatchConfig)
  : list (unit -> num) :=
  [ fun _ => exactMatch query target (exact (weights config));
    fun _ => fuzzyMatch query target config;
    fun _ => normalizedMatch query target (normalized (weights config));
    fun _ => phoneticMatch query target (phonetic (weights config)) ].

(** [match(query, target, config)] *)
Definition match_ (query target : jsstring) (config : FuzzyMatchConfig) : num :=
  let bestScore := best_of (strategies query target config) 0%float in
  if isFuzzyScore bestScore then bestScore else 0%float.

(** [match(query, target)]: [config] defaults to [FUZZY_MATCH_CONFIG]. *)
Definition match_default (query target : jsstring) : num :=
  match_ query target FUZZY_MATCH_CONFIG.

End FuzzyStringMatcher.

(** ** The fuzzy score by lengths

    Under [FUZZY_MATCH_CONFIG] the fuzzy strategy depends on its strings
    only through the longer length and the distance; this is its score as a
    function of the two, for a distance within [maxDistance]. *)

Module ScoreTable.

Definition similarity_of (maxLen distance : Z) : num :=
  if (maxLen =? 0)%Z then 1%float
  else Math_max 0%float
         (num_of_Z (maxLen - distance) / num_of_Z maxLen)%float.

Definition fuzzy_score_of (maxLen distance : Z) : num :=
  let similarity := similarity_of maxLen distance in
  if (similarity <? 0.6)%float then 0%float
  else Math_round (similarity * 80)%float.

(** A score that does not beat 80 and does not end the loop of [match]. *)
Definition at_most_80 (score : num) : bool :=
  negb (80 <? score)%float && negb (score =? 100)%float.

End ScoreTable.

(** ** Bounds on binary64 values

    The notion in which the bounds on the results of the binary64
    operations are stated, over the specification of the format
    ([SpecFloat]). *)

Module FloatBounds.

(** A specification float that is a zero, or a positive number of value
    at most [mv * 2^ev], written [m * 2^e] with [e <= ev]. *)
Definition SF_at_most (x : spec_float) (mv : positive) (ev : Z) : Prop :=
  match x with
  | S754_zero _ => True
  | S754_finite false m e =>
      (e <= ev)%Z /\ (Zpos m <= Zpos mv * 2 ^ (ev - e))%Z
  | _ => False
  end.

End FloatBounds.

(** ** AnimePageExtractor: the scoring of one candidate *)

Module AnimePageExtractor.

Import Patterns StringNormalizer FuzzyStringMatcher.
Local Open Scope re_scope.

Inductive MatchStrategy : Type :=
| Exact | Fuzzy | Normalized | Phonetic.

Record ScoreMatch : Type := MkScoreMatch {
  url : jsstring;
  title : jsstring;
  score : num;
  strategy : MatchStrategy;
  normalizedTitle : option jsstring
}.

(** [s.replace(/a/g, b)] for literal texts. *)
Definition replace_text (a b : string) (s : jsstring) : jsstring :=
  replace (Pattern false true (lit (js a))) [TLit (js b)] s.

(** [/\/([^\/]+)\/?$/] *)
Definition SLUG : pattern :=
  Pattern false false
    (c "/" >-> Grp 1 (plus (Cls (fun x => negb (x =? ch "/"))))
       >-> opt (c "/") >-> Eos).

Definition extractSlugFromURL (u : jsstring) : jsstring :=
  match exec SLUG u with
  | Some slugMatch =>
      match group 1 (m_caps slugMatch) with
      | Some g => trim (replace_text "_" " " (replace_text "-" " " g))
      | None => []
      end
  | None => []
  end.

(** The loop of [calculateCompoundWordScore] that counts the query words
    of more than two code units found in the title. *)
Fixpoint countPartial (titleLower : jsstring) (queryWords : list jsstring)
  : Z :=
  match queryWords with
  | word :: more =>
      ((if includes titleLower word && (2 <? List.length word)%nat
        then 1 else 0) + countPartial titleLower more)%Z
  | [] => 0%Z
  end.

Definition calculateCompoundWordScore (query title_ : jsstring) : Z :=
  let queryWords := split (Pattern false false (plus space))
                          (toLowerCase query) in
  let titleLower := toLowerCase title_ in
  (* joining query words matches title *)
  let joinedQuery := List.concat queryWords in
  if includes titleLower joinedQuery then 85%Z
  else
    (* splitting common compound words in title matches query *)
    let expandedTitle :=
      replace_text "yuusha" "yuu sha"
        (replace_text "kenshi" "ken shi"
           (replace_text "seireitsukai" "seirei tsukai"
              (replace_text "mahoutsukai" "mahou tsukai" titleLower))) in
    if includes expandedTitle (toLowerCase query) then 80%Z
    else
      (* Partial compound word matching *)
      let partialMatches := countPartial titleLower queryWords in
      if (0 <? partialMatches)%Z then Z.min 70 (partialMatches * 25)
      else 0%Z.

Section Scoring.

Variable T : Type.

(** [calculateAdvancedMatchScore]: the metrics are the only part of the
    static state it touches. *)
Definition calculateAdvancedMatchScore (query title_ url_ : jsstring)
  (st : PerformanceCache.state T) : ScoreMatch * PerformanceCache.state T :=
  let st := PerformanceCache.incrementFuzzyCount st in
  (* Quick exact match check first (fastest) *)
  let queryLower := toLowerCase query in
  let titleLower := toLowerCase title_ in
  if str_eqb queryLower titleLower
  then (MkScoreMatch url_ title_ 100%float Exact (Some titleLower), st)
  (* Quick substring check (fast) *)
  else if includes titleLower queryLower
  then (MkScoreMatch url_ title_ 90%float Exact (Some titleLower), st)
  else
    (* Compound word check (medium cost, high accuracy) *)
    let compoundScore := calculateCompoundWordScore query title_ in
    if (80 <=? compoundScore)%Z
    then (MkScoreMatch url_ title_ (num_of_Z compoundScore) Phonetic
                       (Some titleLower), st)
    else
      (* URL slug matching (medium cost) *)
      let urlSlug := extractSlugFromURL url_ in
      let urlScore := match_default query urlSlug in
      if (3 <? List.length urlSlug)%nat && (75 <=? urlScore)%float
      then (MkScoreMatch url_ title_ urlScore Normalized (Some titleLower), st)
      else
        (* Expensive fuzzy matching only as last resort *)
        let normalizedQuery := normalize query in
        let normalizedTitle_ := normalize title_ in
        let fuzzyScore := match_default normalizedQuery normalizedTitle_ in
        let finalScore := if isFuzzyScore fuzzyScore then fuzzyScore
                          else 0%float in
        (MkScoreMatch url_ title_ finalScore Fuzzy
           (if isNormalizedString normalizedTitle_
            then Some normalizedTitle_ else None), st).

(** [FuzzyStringMatcher.match] as a step on the static state: its body
    reads and writes no static member of [PerformanceCache]. *)
Definition match_step (query target : jsstring) (config : FuzzyMatchConfig)
  (st : PerformanceCache.state T) : num * PerformanceCache.state T :=
  (match_ query target config, st).

End Scoring.

End AnimePageExtractor.

(* ================================================================== *)
(** * Part II. Properties                                              *)
(* ================================================================== *)

(** ** The matcher is sound *)

Section MatcherSound.

Local Open Scope nat_scope.

Variable icase : bool.
Variable R : Type.

Lemma or_else_Some :
  forall (A : Type) (a b : option A) (x : A),
    or_else a b = Some x -> a = Some x \/ (a = None /\ b = Some x).
Proof. intros A [y|] b x H; cbn in H; auto. Qed.

Lemma rep_loop_sound :
  forall (r1 : regex) (lo : nat) (hi : option nat)
         (k : mstate -> option R),
    (forall st (k' : mstate -> option R) x,
        run icase r1 st k' = Some x ->
        exists st', Matches icase r1 st st' /\ k' st' = Some x) ->
    forall fuel n st0 x,
      at_most hi n ->
      rep_loop (run icase r1) lo hi k fuel n st0 = Some x ->
      exists m st', iter m (Matches icase r1) st0 st'
                    /\ lo <= n + m /\ at_most hi (n + m) /\ k st' = Some x.
Proof.
  intros r1 lo hi k IH.
  assert (Hstop : forall n st0 x,
            at_most hi n ->
            (if lo <=? n then k st0 else None) = Some x ->
            exists m st', iter m (Matches icase r1) st0 st'
                          /\ lo <= n + m /\ at_most hi (n + m)
                          /\ k st' = Some x).
  { intros n st0 x Hn H. destruct (lo <=? n) eqn:E; [|discriminate].
    apply Nat.leb_le in E. exists 0, st0. rewrite Nat.add_0_r.
    repeat split; assumption. }
  induction fuel as [|fuel IHf]; intros n st0 x Hn H; cbn in H.
  - apply Hstop; assumption.
  - destruct (below hi n) eqn:Eb; [|apply Hstop; assumption].
    apply or_else_Some in H. destruct H as [H|[_ H]];
      [|apply Hstop; assumption].
    apply IH in H. destruct H as (st1 & Hm & H). cbv beta in H.
    match type of H with
    | (if ?c then _ else _) = _ => destruct c; [|discriminate H]
    end.
    apply IHf in H.
    + destruct H as (m & st' & Hit & Hlo & Hhi & Hk).
      exists (S m), st'. rewrite Nat.add_succ_r.
      repeat split; try assumption. cbn. exists st1. split; assumption.
    + destruct hi as [h|]; cbn in *; [|exact I].
      apply Nat.ltb_lt in Eb. lia.
Qed.

(** Whatever [run] hands to its continuation is a match. *)
Lemma run_sound :
  forall (r : regex) (st : mstate) (k : mstate -> option R) (x : R),
    run icase r st k = Some x ->
    exists st', Matches icase r st st' /\ k st' = Some x.
Proof.
  induction r as [c|p| |r1 IH1 r2 IH2|r1 IH1 r2 IH2|lo hi r1 IH1|g r1 IH1| | |];
    intros st k x H; cbn in H.
  - destruct st as [pv [|y s'] cs]; cbn in H; [discriminate|].
    destruct (chr_eqb icase c y) eqn:E; [|discriminate].
    eexists. split; [|exact H]. cbn. exists y. repeat split. exact E.
  - destruct st as [pv [|y s'] cs]; cbn in H; [discriminate|].
    destruct (p y) eqn:E; [|discriminate].
    eexists. split; [|exact H]. cbn. exists y. repeat split. exact E.
  - exists st. split; [reflexivity|exact H].
  - apply IH1 in H. destruct H as (st1 & H1 & H).
    apply IH2 in H. destruct H as (st' & H2 & H).
    exists st'. split; [|exact H]. cbn. exists st1. split; assumption.
  - apply or_else_Some in H. destruct H as [H|[_ H]].
    + apply IH1 in H. destruct H as (st' & H1 & H).
      exists st'. split; [left; exact H1|exact H].
    + apply IH2 in H. destruct H as (st' & H2 & H).
      exists st'. split; [right; exact H2|exact H].
  - assert (H0 : at_most hi 0) by (destruct hi; cbn; [lia|exact I]).
    destruct (@rep_loop_sound r1 lo hi k IH1 _ 0 st x H0 H)
      as (m & st' & Hit & Hlo & Hhi & Hk).
    exists st'. split; [|exact Hk]. cbn. exists m. repeat split; assumption.
  - apply IH1 in H. destruct H as (st1 & H1 & H).
    eexists. split; [|exact H]. cbn. exists st1. split; [exact H1|reflexivity].
  - destruct (xorb (word_before st) (word_after st)) eqn:E; [|discriminate].
    exists st. repeat split; assumption.
  - destruct (prev st) eqn:E; [discriminate|].
    exists st. repeat split; assumption.
  - destruct (rest st) eqn:E; [|discriminate].
    exists st. repeat split; assumption.
Qed.

End MatcherSound.

Section MatchFacts.

Local Open Scope nat_scope.

Variable icase : bool.

(** A match consumes a prefix of the input, of at least [minlen] code
    units. *)
Lemma Matches_consumes :
  forall (r : regex) (st st' : mstate),
    Matches icase r st st' ->
    exists w, rest st = w ++ rest st' /\ minlen r <= List.length w.
Proof.
  induction r as [c|p| |r1 IH1 r2 IH2|r1 IH1 r2 IH2|lo hi r1 IH1|g r1 IH1| | |];
    intros st st' H; cbn in H.
  - destruct H as (x & Hr & _ & _). exists [x]. split; [exact Hr|cbn; lia].
  - destruct H as (x & Hr & _ & _). exists [x]. split; [exact Hr|cbn; lia].
  - subst st'. exists []. split; [reflexivity|cbn; lia].
  - destruct H as (st1 & H1 & H2).
    apply IH1 in H1. apply IH2 in H2.
    destruct H1 as (w1 & E1 & L1), H2 as (w2 & E2 & L2).
    exists (w1 ++ w2). rewrite <- app_assoc, <- E2, <- E1.
    split; [reflexivity|]. rewrite length_app. cbn. lia.
  - destruct H as [H|H]; [apply IH1 in H|apply IH2 in H];
      destruct H as (w & E & L); exists w; (split; [exact E|cbn; lia]).
  - destruct H as (n & Hlo & _ & Hit).
    assert (Hn : exists w, rest st = w ++ rest st'
                           /\ n * minlen r1 <= List.length w).
    { clear Hlo. revert st Hit. induction n as [|n IHn]; intros st Hit; cbn in Hit.
      - subst st'. exists []. split; [reflexivity|cbn; lia].
      - destruct Hit as (st1 & H1 & Hit).
        apply IH1 in H1. apply IHn in Hit.
        destruct H1 as (w1 & E1 & L1), Hit as (w2 & E2 & L2).
        exists (w1 ++ w2). rewrite <- app_assoc, <- E2, <- E1.
        split; [reflexivity|]. rewrite length_app. cbn. lia. }
    destruct Hn as (w & E & L). exists w. split; [exact E|].
    cbn. nia.
  - destruct H as (st1 & H1 & ->). apply IH1 in H1.
    destruct H1 as (w & E & L). exists w. split; [exact E|exact L].
  - destruct H as [-> _]. exists []. split; [reflexivity|cbn; lia].
  - destruct H as [-> _]. exists []. split; [reflexivity|cbn; lia].
  - destruct H as [-> _]. exists []. split; [reflexivity|cbn; lia].
Qed.

(** The text taken by a match is the prefix it consumed. *)
Lemma taken_prefix :
  forall (st st' : mstate) (w : jsstring),
    rest st = w ++ rest st' -> taken st st' = w.
Proof.
  intros st st' w E. unfold taken. rewrite E, length_app.
  replace (List.length w + List.length (rest st') - List.length (rest st'))
    with (List.length w) by lia.
  rewrite firstn_app, Nat.sub_diag, firstn_all. cbn. apply app_nil_r.
Qed.

End MatchFacts.

(** ** TorrentParser.isBatchTorrent *)

Section BatchRules.

Import TorrentParser.

(** C9. The last rule of [isBatchTorrent] (the isolated " - NNN " pattern
    that returns false) cannot be observed: on every name and episode title
    the function agrees with the one that has the rule taken out, because
    the rule and the default both answer false. *)
Theorem isBatchTorrent_single_episode_rule_unobservable :
  forall name episodeTitle : jsstring,
    isBatchTorrent name episodeTitle
    = isBatchTorrent_without_single_episode_rule name episodeTitle.
Proof.
  intros name episodeTitle.
  unfold isBatchTorrent, isBatchTorrent_without_single_episode_rule.
  destruct (includes (toLowerCase name) (js "batch")
            || includes (toLowerCase name) (js "complete")
            || includes (toLowerCase episodeTitle) (js "~")); [reflexivity|].
  destruct (rangeRule name); [reflexivity|].
  destruct (is_some (exec Patterns.SEASON_ONLY (toLowerCase name))
            && negb (is_some (exec Patterns.SEASON_WITH_EPISODE
                                   (toLowerCase name)))); [reflexivity|].
  destruct (is_some (exec Patterns.SINGLE_EPISODE name)); reflexivity.
Qed.

End BatchRules.

(** ** TorrentParser.extractEpisodeNumber *)

Section EpisodeNumber.

Import TorrentParser Patterns Config.

Lemma isolation_excludes_resolutions :
  forall n : Z,
    isValidEpisodeForIsolation n = true ->
    n <> 480%Z /\ n <> 720%Z /\ n <> 1080%Z /\ (1 <= n < 2000)%Z.
Proof.
  intros n H. unfold isValidEpisodeForIsolation, isValidEpisodeNumber in H.
  unfold MIN_EPISODE_NUMBER, MAX_EPISODE_NUMBER, MAX_YEAR,
    COMMON_RESOLUTIONS in H.
  cbn [existsb] in H.
  repeat rewrite andb_true_iff in H.
  destruct H as [[[Hlo _] Hres] Hyear].
  rewrite negb_true_iff in Hres.
  repeat rewrite orb_false_iff in Hres.
  destruct Hres as (H480 & H720 & H1080 & _).
  apply Z.eqb_neq in H480, H720, H1080.
  apply Z.leb_le in Hlo. apply Z.ltb_lt in Hyear.
  repeat split; assumption.
Qed.

Lemma firstIsolated_valid :
  forall (matches : list jsstring) (n : Z),
    firstIsolated matches = Some n -> isValidEpisodeForIsolation n = true.
Proof.
  induction matches as [|numStr more IH]; intros n H; cbn in H.
  - discriminate.
  - destruct (parseInt numStr) as [num|].
    + destruct (isValidEpisodeForIsolation num) eqn:E.
      * injection H as <-. exact E.
      * apply IH. exact H.
    + apply IH. exact H.
Qed.

Lemma isolated_never_resolution :
  forall name : jsstring,
    tryExtractFromIsolatedNumbers name <> Some 1080%Z
    /\ tryExtractFromIsolatedNumbers name <> Some 480%Z
    /\ tryExtractFromIsolatedNumbers name <> Some 720%Z.
Proof.
  intro name.
  assert (H : forall n : Z,
            tryExtractFromIsolatedNumbers name = Some n ->
            n <> 480%Z /\ n <> 720%Z /\ n <> 1080%Z).
  { intros n H. unfold tryExtractFromIsolatedNumbers in H.
    destruct (match_all EPISODE_NUMBER name) as [matches|]; [|discriminate].
    apply firstIsolated_valid, isolation_excludes_resolutions in H.
    destruct H as (H1 & H2 & H3 & _). repeat split; assumption. }
  repeat split; intro E; apply H in E; destruct E as (H1 & H2 & H3);
    [apply H3|apply H1|apply H2]; reflexivity.
Qed.

(** The name "Show - 1080 (BD)" holds the digits of the token 1080 and no
    other digit, is not a batch, and gets episode number 1080 from the
    dash-delimited pattern. *)
Lemma extractEpisodeNumber_yields_1080 :
  filter is_digit (js "Show - 1080 (BD)") = js "1080"
  /\ isBatchTorrent (js "Show - 1080 (BD)") [] = false
  /\ extractEpisodeNumber (js "Show - 1080 (BD)") [] = 1080%Z.
Proof. vm_compute. repeat split. Qed.

(** C6 (amended). [extractEpisodeNumber] is -1 whenever [isBatchTorrent]
    holds; otherwise it is the first non-null result of the five strategies
    in their order, so the two release names of the specification give 5
    and 7.  The fallback over isolated numbers never yields 1080, nor 480
    or 720; episode number 1080 can only come from one of the four pattern
    strategies. *)
Theorem extractEpisodeNumber_batch_and_priority :
  forall name episodeTitle : jsstring,
    (isBatchTorrent name episodeTitle = true ->
     extractEpisodeNumber name episodeTitle = (-1)%Z)
    /\ (isBatchTorrent name episodeTitle = false ->
        extractEpisodeNumber name episodeTitle
        = match tryExtractFromPattern episodeTitle PORTUGUESE with
          | Some n => n
          | None =>
            match tryExtractFromPattern name EPISODE_DASH with
            | Some n => n
            | None =>
              match tryExtractFromSeasonEpisode name with
              | Some n => n
              | None =>
                match tryExtractFromPattern name ENGLISH with
                | Some n => n
                | None =>
                  match tryExtractFromIsolatedNumbers name with
                  | Some n => n
                  | None => (-1)%Z
                  end
                end
              end
            end
          end)
    /\ extractEpisodeNumber (js "[Group] Show S01E05 (1080p)") [] = 5%Z
    /\ extractEpisodeNumber (js "[Group] Show - 07 (1080p)") [] = 7%Z
    /\ tryExtractFromIsolatedNumbers name <> Some 1080%Z
    /\ tryExtractFromIsolatedNumbers name <> Some 480%Z
    /\ tryExtractFromIsolatedNumbers name <> Some 720%Z
    /\ (extractEpisodeNumber name episodeTitle = 1080%Z ->
        tryExtractFromPattern episodeTitle PORTUGUESE = Some 1080%Z
        \/ tryExtractFromPattern name EPISODE_DASH = Some 1080%Z
        \/ tryExtractFromSeasonEpisode name = Some 1080%Z
        \/ tryExtractFromPattern name ENGLISH = Some 1080%Z).
Proof.
  intros name episodeTitle.
  destruct (isolated_never_resolution name) as (Hiso & H480 & H720).
  unfold extractEpisodeNumber, extractionStrategies.
  cbn [firstResult].
  split; [|split; [|split; [|split; [|split; [|split; [|split]]]]]].
  - intros ->. reflexivity.
  - intros ->. reflexivity.
  - vm_compute. reflexivity.
  - vm_compute. reflexivity.
  - exact Hiso.
  - exact H480.
  - exact H720.
  - destruct (isBatchTorrent name episodeTitle); [discriminate|].
    destruct (tryExtractFromPattern episodeTitle PORTUGUESE) as [n1|];
      [intros ->; auto|].
    destruct (tryExtractFromPattern name EPISODE_DASH) as [n2|];
      [intros ->; auto|].
    destruct (tryExtractFromSeasonEpisode name) as [n3|];
      [intros ->; auto|].
    destruct (tryExtractFromPattern name ENGLISH) as [n4|];
      [intros ->; auto|].
    destruct (tryExtractFromIsolatedNumbers name) as [n5|].
    + intros ->. exfalso. apply Hiso. reflexivity.
    + discriminate.
Qed.

(** The theorem at a batch release: the range rule fires and the episode
    number is -1, although the name holds the isolated number 12. *)
Lemma extractEpisodeNumber_batch_and_priority_witness :
  isBatchTorrent (js "[Group] Show 01-12 (1080p)") [] = true
  /\ extractEpisodeNumber (js "[Group] Show 01-12 (1080p)") [] = (-1)%Z.
Proof.
  assert (H : isBatchTorrent (js "[Group] Show 01-12 (1080p)") [] = true)
    by (vm_compute; reflexivity).
  split; [exact H|].
  exact (proj1 (extractEpisodeNumber_batch_and_priority
                  (js "[Group] Show 01-12 (1080p)") []) H).
Defined.

End EpisodeNumber.

(** ** Binary64 arithmetic: rounding keeps bounds and small integers *)

Section Binary64.


Import FloatBounds.

Local Open Scope Z_scope.

Unset Implicit Arguments.

Lemma fexp_value : forall e : Z, fexp prec emax e = Z.max (e - 53) (-1074).
Proof. reflexivity. Qed.

Lemma fexp_mono :
  forall a b : Z, a <= b -> fexp prec emax a <= fexp prec emax b.
Proof. intros a b H. rewrite !fexp_value. lia. Qed.

(** The number of binary digits of a positive number. *)
Lemma digits2_pos_size : forall p : positive, digits2_pos p = Pos.size p.
Proof. induction p; cbn; congruence. Qed.

Lemma digits2_pos_bounds :
  forall p : positive,
    2 ^ (Zpos (digits2_pos p) - 1) <= Zpos p < 2 ^ Zpos (digits2_pos p).
Proof.
  intro p. rewrite digits2_pos_size. split.
  - pose proof (Pos.size_le p) as H.
    assert (H' : 2 ^ Zpos (Pos.size p) <= 2 * Zpos p).
    { change 2 with (Zpos 2) at 1. rewrite <- Pos2Z.inj_pow.
      change (2 * Zpos p) with (Zpos p~0). apply Pos2Z.pos_le_pos. exact H. }
    replace (Zpos (Pos.size p)) with (Zpos (Pos.size p) - 1 + 1) in H' by lia.
    rewrite Z.pow_add_r in H' by lia. lia.
  - pose proof (Pos.size_gt p) as H.
    change 2 with (Zpos 2). rewrite <- Pos2Z.inj_pow.
    apply Pos2Z.pos_lt_pos. exact H.
Qed.

(** One step of the right shift. *)
Lemma shr_1_spec :
  forall mrs : shr_record,
    0 <= shr_m mrs ->
    shr_m (shr_1 mrs) = shr_m mrs / 2
    /\ (shr_r mrs = false -> shr_s mrs = false -> Z.even (shr_m mrs) = true ->
        shr_r (shr_1 mrs) = false /\ shr_s (shr_1 mrs) = false).
Proof.
  intros [m r s] Hm. cbn [shr_m shr_r shr_s] in *.
  rewrite <- Z.div2_div.
  destruct m as [|[p|p|]|p]; cbn; try lia;
    (split; [reflexivity|intros -> -> H; try discriminate H; split; reflexivity]).
Qed.

Lemma iter_pos_iter :
  forall (A : Type) (f : A -> A) (p : positive) (x : A),
    iter_pos f p x = Pos.iter f x p.
Proof.
  intros A f. induction p as [p IH|p IH|]; intro x; cbn.
  - rewrite !IH, !Pos.iter_swap. reflexivity.
  - rewrite !IH. reflexivity.
  - reflexivity.
Qed.

(** The right shift by [p] digits: the quotient by [2^p], exact when
    nothing was lost before and [2^p] divides the number. *)
Lemma iter_pos_shr_1 :
  forall (p : positive) (mrs : shr_record),
    0 <= shr_m mrs ->
    shr_m (iter_pos shr_1 p mrs) = shr_m mrs / 2 ^ Zpos p
    /\ (shr_r mrs = false -> shr_s mrs = false ->
        (2 ^ Zpos p | shr_m mrs) ->
        shr_r (iter_pos shr_1 p mrs) = false
        /\ shr_s (iter_pos shr_1 p mrs) = false).
Proof.
  intros p mrs Hm. rewrite iter_pos_iter.
  induction p as [|p IH] using Pos.peano_ind.
  - cbn [Pos.iter]. destruct (shr_1_spec mrs Hm) as [H1 H2].
    split; [exact H1|].
    intros Hr Hs [q Hq]. apply H2; try assumption.
    rewrite Hq. change (2 ^ 1) with 2. rewrite Z.even_mul.
    apply orb_true_r.
  - rewrite Pos.iter_succ. destruct IH as [IH1 IH2].
    assert (Hp : 2 ^ Zpos (Pos.succ p) = 2 ^ Zpos p * 2).
    { rewrite Pos2Z.inj_succ, Z.pow_succ_r by lia. lia. }
    assert (Hpos : 0 < 2 ^ Zpos p) by (apply Z.pow_pos_nonneg; lia).
    assert (Hm' : 0 <= shr_m (Pos.iter shr_1 mrs p)).
    { rewrite IH1. apply Z.div_pos; lia. }
    destruct (shr_1_spec _ Hm') as [H1 H2].
    split.
    + rewrite H1, IH1, Hp, Z.div_div by lia. reflexivity.
    + intros Hr Hs [q Hq]. rewrite Hp in Hq.
      assert (Hd : (2 ^ Zpos p | shr_m mrs)).
      { exists (q * 2). lia. }
      destruct (IH2 Hr Hs Hd) as [Hr' Hs'].
      apply H2; try assumption.
      rewrite IH1, Hq.
      replace (q * (2 ^ Zpos p * 2)) with (q * 2 * 2 ^ Zpos p) by lia.
      rewrite Z.div_mul by lia. rewrite Z.even_mul. apply orb_true_r.
Qed.

Lemma loc_of_shr_record_of_loc :
  forall (m : Z) (l : location),
    loc_of_shr_record (shr_record_of_loc m l) = l.
Proof. intros m [|[| |]]; reflexivity. Qed.

Lemma shr_m_record_of_loc :
  forall (m : Z) (l : location), shr_m (shr_record_of_loc m l) = m.
Proof. intros m [|[| |]]; reflexivity. Qed.

(** The bound [mv * 2^ev], expressed in units of [2^e]. *)
Lemma scale_split :
  forall (ev e e' : Z),
    e <= e' -> e' <= ev -> 2 ^ (ev - e) = 2 ^ (ev - e') * 2 ^ (e' - e).
Proof.
  intros ev e e' H1 H2. rewrite <- Z.pow_add_r by lia. f_equal. lia.
Qed.

(** The first step of rounding keeps a number that is at most a canonical
    float [mv * 2^ev] at most that float. *)
Lemma shr_fexp_le :
  forall (mx ex : Z) (lx : location) (mv : positive) (ev : Z),
    0 <= mx ->
    ex <= ev ->
    fexp prec emax (Zpos (digits2_pos mv) + ev) = ev ->
    (mx < Zpos mv * 2 ^ (ev - ex)
     \/ (mx = Zpos mv * 2 ^ (ev - ex) /\ lx = loc_Exact)) ->
    exists (mrs : shr_record) (e' : Z),
      shr_fexp prec emax mx ex lx = (mrs, e')
      /\ e' <= ev
      /\ 0 <= shr_m mrs
      /\ (shr_m mrs < Zpos mv * 2 ^ (ev - e')
          \/ (shr_m mrs = Zpos mv * 2 ^ (ev - e')
              /\ loc_of_shr_record mrs = loc_Exact)).
Proof.
  intros mx ex lx mv ev Hmx Hex Hcan Hle.
  assert (Hdig : Zdigits2 mx + ex <= Zpos (digits2_pos mv) + ev).
  { destruct mx as [|p|p]; [change (Zdigits2 0) with 0; lia| |lia].
    cbn [Zdigits2].
    pose proof (digits2_pos_bounds p) as [Hp _].
    pose proof (digits2_pos_bounds mv) as [_ Hv].
    assert (Hw : 0 < 2 ^ (ev - ex)) by (apply Z.pow_pos_nonneg; lia).
    assert (Hlt : 2 ^ (Zpos (digits2_pos p) - 1)
                  < 2 ^ (Zpos (digits2_pos mv) + (ev - ex))).
    { rewrite Z.pow_add_r by lia. nia. }
    apply Z.pow_lt_mono_r_iff in Hlt; lia. }
  apply fexp_mono in Hdig. rewrite Hcan in Hdig.
  unfold shr_fexp, shr.
  set (n := fexp prec emax (Zdigits2 mx + ex) - ex) in *.
  destruct n as [|p|p] eqn:En.
  - exists (shr_record_of_loc mx lx), ex.
    rewrite shr_m_record_of_loc, loc_of_shr_record_of_loc.
    repeat split; try assumption.
  - exists (iter_pos shr_1 p (shr_record_of_loc mx lx)), (ex + Zpos p).
    assert (H0 : 0 <= shr_m (shr_record_of_loc mx lx))
      by (rewrite shr_m_record_of_loc; exact Hmx).
    destruct (iter_pos_shr_1 p _ H0) as [H1 H2].
    rewrite shr_m_record_of_loc in H1, H2.
    assert (Hpos : 0 < 2 ^ Zpos p) by (apply Z.pow_pos_nonneg; lia).
    assert (Hsplit : 2 ^ (ev - ex) = 2 ^ (ev - (ex + Zpos p)) * 2 ^ Zpos p).
    { rewrite (scale_split ev ex (ex + Zpos p)) by lia.
      f_equal. f_equal. lia. }
    split; [reflexivity|]. split; [lia|].
    split; [rewrite H1; apply Z.div_pos; lia|].
    rewrite H1. rewrite Hsplit in Hle.
    destruct Hle as [Hlt|[Heq Hl]].
    + left. apply Z.div_lt_upper_bound; [exact Hpos|]. lia.
    + right. split.
      * rewrite Heq, Z.mul_assoc, Z.div_mul by lia. reflexivity.
      * subst lx. cbn [shr_record_of_loc shr_r shr_s] in H2.
        destruct H2 as [Hr Hs]; try reflexivity.
        { exists (Zpos mv * 2 ^ (ev - (ex + Zpos p))). lia. }
        destruct (iter_pos shr_1 p _) as [m' r' s']. cbn in Hr, Hs.
        subst r' s'. reflexivity.
  - exists (shr_record_of_loc mx lx), ex.
    rewrite shr_m_record_of_loc, loc_of_shr_record_of_loc.
    repeat split; try assumption.
Qed.

(** Rounding a number that is at most a canonical float gives a float
    that is at most that float. *)
Lemma binary_round_aux_le :
  forall (mx ex : Z) (lx : location) (mv : positive) (ev : Z),
    0 <= mx ->
    ex <= ev ->
    ev <= 971 ->
    fexp prec emax (Zpos (digits2_pos mv) + ev) = ev ->
    (mx < Zpos mv * 2 ^ (ev - ex)
     \/ (mx = Zpos mv * 2 ^ (ev - ex) /\ lx = loc_Exact)) ->
    SF_at_most (binary_round_aux prec emax false mx ex lx) mv ev.
Proof.
  intros mx ex lx mv ev Hmx Hex Hev Hcan Hle.
  unfold binary_round_aux.
  destruct (shr_fexp_le mx ex lx mv ev Hmx Hex Hcan Hle)
    as (mrs1 & e1 & -> & He1 & Hm1 & Hle1).
  set (m1 := round_nearest_even (shr_m mrs1) (loc_of_shr_record mrs1)).
  assert (Hr : 0 <= m1 /\ m1 <= Zpos mv * 2 ^ (ev - e1)).
  { unfold m1, round_nearest_even.
    destruct Hle1 as [Hlt|[Heq ->]]; [|lia].
    destruct (loc_of_shr_record mrs1) as [|[| |]]; try lia.
    destruct (Z.even (shr_m mrs1)); lia. }
  destruct Hr as [Hm1' Hr].
  assert (Hle2 : m1 < Zpos mv * 2 ^ (ev - e1)
                 \/ (m1 = Zpos mv * 2 ^ (ev - e1) /\ loc_Exact = loc_Exact)).
  { destruct (Z.eq_dec m1 (Zpos mv * 2 ^ (ev - e1))) as [E|E];
      [right; split; [exact E|reflexivity]|left; lia]. }
  destruct (shr_fexp_le m1 e1 loc_Exact mv ev Hm1' He1 Hcan Hle2)
    as (mrs2 & e2 & -> & He2 & Hm2 & Hle3).
  destruct (shr_m mrs2) as [|m|m] eqn:Em; [exact I| |lia].
  assert (E : (e2 <=? emax - prec) = true).
  { apply Z.leb_le. change (emax - prec) with 971. lia. }
  rewrite E. cbn [SF_at_most]. split; [exact He2|lia].
Qed.

(** A canonical mantissa goes through rounding unchanged. *)
Lemma binary_round_aux_canonical :
  forall (s : bool) (m : positive) (e : Z),
    fexp prec emax (Zpos (digits2_pos m) + e) = e ->
    e <= 971 ->
    binary_round_aux prec emax s (Zpos m) e loc_Exact = S754_finite s m e.
Proof.
  intros s m e Hcan He. unfold binary_round_aux.
  assert (E : shr_fexp prec emax (Zpos m) e loc_Exact
              = (Build_shr_record (Zpos m) false false, e)).
  { unfold shr_fexp, shr. cbn [Zdigits2 shr_record_of_loc].
    rewrite Hcan, Z.sub_diag. reflexivity. }
  rewrite E. cbn [shr_m loc_of_shr_record round_nearest_even].
  rewrite E. cbn [shr_m].
  assert (E' : (e <=? emax - prec) = true).
  { apply Z.leb_le. change (emax - prec) with 971. exact He. }
  rewrite E'. reflexivity.
Qed.

Lemma iter_xO_value :
  forall (k p : positive), Zpos (Pos.iter xO p k) = Zpos p * 2 ^ Zpos k.
Proof.
  intros k p. induction k as [|k IH] using Pos.peano_ind.
  - cbn [Pos.iter]. change (2 ^ 1) with 2. lia.
  - rewrite Pos.iter_succ, Pos2Z.inj_xO, IH, Pos2Z.inj_succ,
      Z.pow_succ_r by lia. lia.
Qed.

Lemma iter_xO_digits :
  forall (k p : positive),
    Zpos (digits2_pos (Pos.iter xO p k)) = Zpos (digits2_pos p) + Zpos k.
Proof.
  intros k p. induction k as [|k IH] using Pos.peano_ind.
  - cbn [Pos.iter digits2_pos]. lia.
  - rewrite Pos.iter_succ. cbn [digits2_pos].
    rewrite Pos2Z.inj_succ, IH, Pos2Z.inj_succ. lia.
Qed.

(** The number that holds a positive integer below [2^53] holds it
    exactly: its mantissa is the integer shifted to 53 digits. *)
Lemma num_of_Z_exact :
  forall p : positive,
    Zpos p < 2 ^ 53 ->
    exists (m : positive) (e : Z),
      Prim2SF (num_of_Z (Zpos p)) = S754_finite false m e
      /\ -52 <= e <= 0
      /\ Zpos m = Zpos p * 2 ^ (- e)
      /\ Zpos (digits2_pos m) = 53.
Proof.
  intros p Hp. unfold num_of_Z. rewrite of_uint63_spec, Uint63.of_Z_spec.
  rewrite Z.mod_small
    by (split; [lia|]; apply (Z.lt_trans _ (2 ^ 53)); [exact Hp|reflexivity]).
  cbn [binary_normalize]. unfold binary_round, shl_align.
  pose proof (digits2_pos_bounds p) as [Hlo Hhi].
  assert (Hd : Zpos (digits2_pos p) <= 53).
  { assert (H : 2 ^ (Zpos (digits2_pos p) - 1) < 2 ^ 53) by lia.
    apply Z.pow_lt_mono_r_iff in H; lia. }
  rewrite fexp_value, Z.add_0_r, Z.sub_0_r.
  replace (Z.max (Zpos (digits2_pos p) - 53) (-1074))
    with (Zpos (digits2_pos p) - 53) by lia.
  destruct (Zpos (digits2_pos p) - 53) as [|k|k] eqn:Ek; [|lia|].
  - exists p, 0. rewrite binary_round_aux_canonical.
    + repeat split; try lia.
    + rewrite fexp_value. lia.
    + lia.
  - exists (Pos.iter xO p k), (Zneg k).
    rewrite binary_round_aux_canonical.
    + split; [reflexivity|]. split; [lia|].
      split; [rewrite iter_xO_value; reflexivity|].
      rewrite iter_xO_digits. lia.
    + rewrite iter_xO_digits, fexp_value. lia.
    + lia.
Qed.

Lemma new_location_zero :
  forall nb_steps : Z, new_location nb_steps 0 = loc_Exact.
Proof.
  intro nb. unfold new_location, new_location_even, new_location_odd.
  destruct (Z.even nb); reflexivity.
Qed.

(** The quotient of two integers [a <= b] below [2^53] is at most 1. *)
Lemma div_at_most_one :
  forall a b : positive,
    Zpos a <= Zpos b ->
    Zpos b < 2 ^ 53 ->
    SF_at_most (Prim2SF (num_of_Z (Zpos a) / num_of_Z (Zpos b)))
               4503599627370496 (-52).
Proof.
  intros a b Hab Hb. rewrite div_spec.
  destruct (num_of_Z_exact a) as (ma & ea & -> & Hea & Hma & Hda); [lia|].
  destruct (num_of_Z_exact b) as (mb & eb & -> & Heb & Hmb & Hdb); [lia|].
  pose proof (digits2_pos_bounds ma) as Hbma. rewrite Hda in Hbma.
  pose proof (digits2_pos_bounds mb) as Hbmb. rewrite Hdb in Hbmb.
  change (2 ^ (53 - 1)) with 4503599627370496 in Hbma, Hbmb.
  change (2 ^ 53) with 9007199254740992 in Hbma, Hbmb.
  assert (Hexp : ea <= eb).
  { destruct (Z_le_gt_dec ea eb) as [H|H]; [exact H|exfalso].
    assert (E : 2 ^ (- eb) = 2 ^ (ea - eb) * 2 ^ (- ea)).
    { rewrite <- Z.pow_add_r by lia. f_equal. lia. }
    assert (H2 : 2 ^ 1 <= 2 ^ (ea - eb))
      by (apply Z.pow_le_mono_r; lia).
    change (2 ^ 1) with 2 in H2.
    assert (Hp : 0 < 2 ^ (- ea)) by (apply Z.pow_pos_nonneg; lia).
    rewrite E in Hmb. nia. }
  unfold SF64div, SFdiv, SFdiv_core_binary. cbn [Zdigits2 xorb].
  rewrite Hda, Hdb, fexp_value.
  replace (Z.min (Z.max (53 + ea - (53 + eb) - 53) (-1074)) (ea - eb))
    with (ea - eb - 53) by lia.
  replace (ea - eb - (ea - eb - 53)) with 53 by lia.
  cbv iota. rewrite Z.shiftl_mul_pow2 by lia.
  change (2 ^ 53) with 9007199254740992.
  pose proof (Z_div_mod (Zpos ma * 9007199254740992) (Zpos mb)
                (eq_refl : (Zpos mb ?= 0) = Gt)) as Hdm.
  destruct (Z.div_eucl (Zpos ma * 9007199254740992) (Zpos mb)) as [q r].
  destruct Hdm as [Hq Hr].
  (* the bound, in units of the quotient *)
  assert (HW : Zpos mb * (4503599627370496 * 2 ^ (-52 - (ea - eb - 53)))
               = Zpos b * (2 ^ (- ea) * 9007199254740992)).
  { rewrite Hmb.
    replace (-52 - (ea - eb - 53)) with (1 + (eb - ea)) by lia.
    replace (- ea) with (- eb + (eb - ea)) by lia.
    rewrite !Z.pow_add_r by lia. change (2 ^ 1) with 2. lia. }
  assert (Hm' : Zpos ma * 9007199254740992
                = Zpos a * (2 ^ (- ea) * 9007199254740992))
    by (rewrite Hma; lia).
  assert (HX : 0 < 2 ^ (- ea) * 9007199254740992).
  { assert (0 < 2 ^ (- ea)) by (apply Z.pow_pos_nonneg; lia). lia. }
  set (W := 4503599627370496 * 2 ^ (-52 - (ea - eb - 53))) in *.
  set (X := 2 ^ (- ea) * 9007199254740992) in *.
  assert (Hq0 : 0 <= q) by nia.
  assert (HqW : q <= W) by nia.
  apply binary_round_aux_le; try lia; [reflexivity|].
  fold W.
  destruct (Z.eq_dec q W) as [E|E]; [right|left; lia].
  split; [exact E|].
  assert (Hr0 : r = 0) by nia.
  rewrite Hr0. apply new_location_zero.
Qed.

(** A number that is at most 1, times 80, is at most 80. *)
Lemma mul_80_at_most :
  forall x : spec_float,
    SF_at_most x 4503599627370496 (-52) ->
    SF_at_most (SF64mul x (S754_finite false 5629499534213120 (-46)))
               5629499534213120 (-46).
Proof.
  intros [s|s| |[|] m e] H; cbn [SF_at_most] in H; try contradiction.
  - exact I.
  - destruct H as [He Hm]. unfold SF64mul, SFmul. cbn [xorb].
    assert (Hp : 4503599627370496 * 2 ^ (-52 - e) = 2 ^ (- e)).
    { change 4503599627370496 with (2 ^ 52).
      rewrite <- Z.pow_add_r by lia. f_equal. lia. }
    apply binary_round_aux_le; try lia; [reflexivity|].
    replace (-46 - (e + -46)) with (- e) by lia.
    rewrite Pos2Z.inj_mul.
    destruct (Z.eq_dec (Zpos m * 5629499534213120)
                       (5629499534213120 * 2 ^ (- e))) as [E|E];
      [right; split; [exact E|reflexivity]|left; nia].
Qed.

Import ScoreTable.

Lemma small_scores_at_most_80 :
  forall z : Z, 0 < z <= 80 -> at_most_80 (num_of_Z z) = true.
Proof.
  intros z Hz.
  assert (Hall : forallb (fun n => at_most_80 (num_of_Z (Z.of_nat n)))
                         (seq 1 80) = true) by (vm_compute; reflexivity).
  rewrite forallb_forall in Hall.
  specialize (Hall (Z.to_nat z)). rewrite Z2Nat.id in Hall by lia.
  apply Hall. apply in_seq. lia.
Qed.

(** [Math.round] of a number that is at most 80 does not beat 80. *)
Lemma Math_round_at_most_80 :
  forall y : num,
    SF_at_most (Prim2SF y) 5629499534213120 (-46) ->
    at_most_80 (Math_round y) = true.
Proof.
  intros y H. unfold Math_round.
  destruct (Prim2SF y) as [s|s| |[|] m e] eqn:Ey; cbn [SF_at_most] in H;
    try contradiction.
  - unfold at_most_80. rewrite ltb_spec, eqb_spec, Ey. reflexivity.
  - destruct H as [He Hm].
    assert (E0 : (0 <=? e) = false) by (apply Z.leb_gt; lia).
    rewrite E0.
    assert (Hp : 0 < 2 ^ (- e)) by (apply Z.pow_pos_nonneg; lia).
    assert (E1 : 2 ^ (1 - e) = 2 * 2 ^ (- e)).
    { replace (1 - e) with (1 + - e) by lia.
      rewrite Z.pow_add_r by lia. reflexivity. }
    assert (E2 : 5629499534213120 * 2 ^ (-46 - e) = 80 * 2 ^ (- e)).
    { change 5629499534213120 with (80 * 2 ^ 46).
      rewrite <- Z.mul_assoc, <- Z.pow_add_r by lia. do 2 f_equal. lia. }
    rewrite E2 in Hm. rewrite E1.
    set (r := (2 * Zpos m + 2 ^ (- e)) / (2 * 2 ^ (- e))).
    assert (Hr : 0 <= r <= 80).
    { unfold r. split.
      - apply Z.div_pos; lia.
      - apply Z.lt_succ_r. apply Z.div_lt_upper_bound; lia. }
    destruct (r =? 0) eqn:Er; [reflexivity|].
    apply Z.eqb_neq in Er. apply small_scores_at_most_80. lia.
Qed.

(** The score of the fuzzy strategy never beats 80, whatever the longer
    length (below [2^53]) and the distance. *)
Lemma fuzzy_score_at_most_80 :
  forall maxLen distance : Z,
    0 <= distance <= maxLen ->
    maxLen < 2 ^ 53 ->
    at_most_80 (fuzzy_score_of maxLen distance) = true.
Proof.
  intros L d Hd HL. unfold fuzzy_score_of, similarity_of.
  destruct (L =? 0) eqn:EL; [vm_compute; reflexivity|].
  apply Z.eqb_neq in EL.
  set (q := (num_of_Z (L - d) / num_of_Z L)%float).
  assert (Hq : SF_at_most (Prim2SF q) 4503599627370496 (-52)).
  { unfold q. destruct L as [|b|b]; try lia.
    destruct (Zpos b - d) as [|a|a] eqn:Ea.
    - rewrite div_spec.
      destruct (num_of_Z_exact b) as (mb & eb & -> & _); [lia|].
      reflexivity.
    - apply div_at_most_one; lia.
    - lia. }
  assert (Hsim : forall sim : num,
            sim = q \/ sim = 0%float \/ sim = PrimFloat.nan ->
            at_most_80 (if (sim <? 0.6)%float then 0%float
                        else Math_round (sim * 80)%float) = true).
  { intros sim [->|[->| ->]]; [|vm_compute; reflexivity..].
    destruct (q <? 0.6)%float; [reflexivity|].
    apply Math_round_at_most_80. rewrite mul_spec.
    change (Prim2SF 80%float)
      with (S754_finite false 5629499534213120 (-46)).
    apply mul_80_at_most. exact Hq. }
  cbv zeta. apply Hsim. unfold Math_max.
  repeat match goal with
         | |- context [if ?c then _ else _] => destruct c
         end; auto.
Qed.

(** A mantissa that ends in enough zeros is shifted to its canonical
    exponent without loss. *)
Lemma binary_round_aux_shift_exact :
  forall (s : bool) (M : positive) (ex : Z) (k m1 : positive),
    fexp prec emax (Zpos (digits2_pos M) + ex) - ex = Zpos k ->
    Zpos M = Zpos m1 * 2 ^ Zpos k ->
    fexp prec emax (Zpos (digits2_pos m1) + (ex + Zpos k)) = ex + Zpos k ->
    ex + Zpos k <= 971 ->
    binary_round_aux prec emax s (Zpos M) ex loc_Exact
    = S754_finite s m1 (ex + Zpos k).
Proof.
  intros s M ex k m1 Hk HM Hcan He. unfold binary_round_aux.
  assert (E : shr_fexp prec emax (Zpos M) ex loc_Exact
              = (Build_shr_record (Zpos m1) false false, ex + Zpos k)).
  { unfold shr_fexp, shr. cbn [Zdigits2 shr_record_of_loc]. rewrite Hk.
    f_equal.
    destruct (iter_pos_shr_1 k (Build_shr_record (Zpos M) false false))
      as [H1 H2]; [cbn; lia|].
    cbn [shr_m shr_r shr_s] in H1, H2.
    assert (Hpos : 0 < 2 ^ Zpos k) by (apply Z.pow_pos_nonneg; lia).
    destruct H2 as [Hr Hs]; try reflexivity.
    { exists (Zpos m1). exact HM. }
    assert (Hdiv : Zpos M / 2 ^ Zpos k = Zpos m1)
      by (rewrite HM; apply Z.div_mul; lia).
    rewrite Hdiv in H1.
    set (rec := iter_pos shr_1 k (Build_shr_record (Zpos M) false false))
      in *.
    destruct rec as [m' r' s']. cbn [shr_m shr_r shr_s] in H1, Hr, Hs.
    subst m' r' s'. reflexivity. }
  rewrite E. cbn [shr_m loc_of_shr_record round_nearest_even].
  assert (E2 : shr_fexp prec emax (Zpos m1) (ex + Zpos k) loc_Exact
               = (Build_shr_record (Zpos m1) false false, ex + Zpos k)).
  { unfold shr_fexp, shr. cbn [Zdigits2 shr_record_of_loc].
    rewrite Hcan, Z.sub_diag. reflexivity. }
  rewrite E2. cbn [shr_m].
  assert (E' : (ex + Zpos k <=? emax - prec) = true).
  { apply Z.leb_le. change (emax - prec) with 971. exact He. }
  rewrite E'. reflexivity.
Qed.

Lemma digits_of_shifted :
  forall (M m : positive) (k : positive),
    Zpos M = Zpos m * 2 ^ Zpos k ->
    Zpos (digits2_pos M) = Zpos (digits2_pos m) + Zpos k.
Proof.
  intros M m k H. rewrite <- iter_xO_value in H. injection H as ->.
  apply iter_xO_digits.
Qed.

Lemma shl_align_value :
  forall (m : positive) (e ez : Z),
    ez <= e -> Zpos (fst (shl_align m e ez)) = Zpos m * 2 ^ (e - ez).
Proof.
  intros m e ez H. unfold shl_align.
  destruct (ez - e) as [|d|d] eqn:Ed; try lia.
  - replace (e - ez) with 0 by lia. cbn [fst]. lia.
  - cbn [fst]. rewrite iter_xO_value. do 2 f_equal. lia.
Qed.

(** Adding 1 to a number that holds an integer [n] below [2^53] gives
    the number that holds [n + 1]. *)
Lemma num_of_Z_succ :
  forall n : Z,
    0 <= n < 2 ^ 53 -> (num_of_Z n + 1)%float = num_of_Z (n + 1).
Proof.
  intros n Hn.
  destruct n as [|p|p]; [reflexivity| |lia].
  destruct (Z.eq_dec (Zpos p + 1) (2 ^ 53)) as [Htop|Htop].
  { assert (E : p = 9007199254740991%positive).
    { change (2 ^ 53) with 9007199254740992 in Htop. lia. }
    subst p. vm_compute. reflexivity. }
  apply Prim2SF_inj. rewrite add_spec.
  destruct (num_of_Z_exact p) as (ma & ea & -> & Hea & Hma & Hda); [lia|].
  assert (Hsucc : Zpos p + 1 = Zpos (p + 1)) by lia.
  rewrite Hsucc.
  destruct (num_of_Z_exact (p + 1)) as (m & e & -> & He & Hm & Hd); [lia|].
  change (Prim2SF 1%float) with (S754_finite false 4503599627370496 (-52)).
  unfold SF64add, SFadd. cbn [cond_Zopp].
  replace (Z.min ea (-52)) with (-52) by lia.
  rewrite shl_align_value by lia.
  change (fst (shl_align 4503599627370496 (-52) (-52)))
    with 4503599627370496%positive.
  (* the exponent of [p + 1] leaves room for the shift *)
  pose proof (digits2_pos_bounds m) as Hbm. rewrite Hd in Hbm.
  change (2 ^ 53) with 9007199254740992 in Hbm.
  assert (He' : -52 < e).
  { destruct (Z.eq_dec e (-52)) as [->|]; [exfalso|lia].
    change (2 ^ (- -52)) with 4503599627370496 in Hm. lia. }
  destruct (e + 52) as [|k|k] eqn:Ek; try lia.
  assert (Hsum : Zpos ma * 2 ^ (ea - -52) + 4503599627370496
                 = Zpos m * 2 ^ Zpos k).
  { rewrite Hma, Hm.
    replace (ea - -52) with (ea + 52) by lia.
    rewrite <- Z.mul_assoc, <- Z.pow_add_r by lia.
    replace (- ea + (ea + 52)) with 52 by lia.
    rewrite <- Z.mul_assoc, <- Z.pow_add_r by lia.
    replace (- e + Zpos k) with 52 by lia.
    change (2 ^ 52) with 4503599627370496. lia. }
  rewrite Hsum, <- iter_xO_value.
  cbn [binary_normalize]. unfold binary_round, shl_align.
  rewrite iter_xO_digits, Hd, fexp_value.
  replace (Z.max (53 + Zpos k + -52 - 53) (-1074) - -52) with (Zpos k) by lia.
  cbv iota.
  replace e with (-52 + Zpos k) by lia.
  apply binary_round_aux_shift_exact.
  - rewrite iter_xO_digits, Hd, fexp_value. lia.
  - apply iter_xO_value.
  - rewrite Hd, fexp_value. lia.
  - lia.
Qed.

End Binary64.
Set Implicit Arguments.

(** ** FuzzyStringMatcher.match: the range of the score *)

Section ScoreRange.

Import FuzzyStringMatcher.

(** C5. For every query, target and configuration, the score returned by
    [match] lies in [0, 100]: it is neither negative nor above 100. *)
Theorem match_score_in_range :
  forall (query target : jsstring) (config : FuzzyMatchConfig),
    (0 <=? match_ query target config)%float = true
    /\ (match_ query target config <=? 100)%float = true.
Proof.
  intros query target config. unfold match_.
  destruct (isFuzzyScore (best_of (strategies query target config) 0%float))
    eqn:Hguard.
  - unfold isFuzzyScore in Hguard. apply andb_true_iff in Hguard.
    exact Hguard.
  - split; reflexivity.
Qed.

End ScoreRange.

(** ** The fuzzy-match counter *)

Section FuzzyCounter.

Import PerformanceCache AnimePageExtractor FuzzyStringMatcher.

(** A call of [match] leaves the counter where it was: here at 0, not at
    0 + 1. *)
Lemma match_leaves_counter :
  let st0 : state unit := State [] initialMetrics in
  let st1 := snd (match_step (js "naruto") (js "naruto shippuden")
                             FUZZY_MATCH_CONFIG st0) in
  fuzzyMatchCount (_metrics st1) = fuzzyMatchCount (_metrics st0)
  /\ fuzzyMatchCount (_metrics st1)
     <> incr (fuzzyMatchCount (_metrics st0)).
Proof.
  cbn. split; [reflexivity|]. intro H.
  apply (f_equal (fun x => (x =? 0)%float)) in H. vm_compute in H.
  discriminate H.
Qed.

(** C7 (amended). The counter [fuzzyMatchCount] is incremented once, by
    [++], by every call of
    [AnimePageExtractor.calculateAdvancedMatchScore], whichever branch
    returns the score, and that call changes nothing else of the static
    state; [FuzzyStringMatcher.match] itself leaves the static state as it
    is.  The increment is the binary64 sum of the counter and 1, which is
    the next integer for every count [n] below [2^53]. *)
Theorem calculateAdvancedMatchScore_counts_once :
  forall (T : Type) (query title_ url_ : jsstring) (st : state T),
    let st' := snd (calculateAdvancedMatchScore query title_ url_ st) in
    fuzzyMatchCount (_metrics st')
    = (fuzzyMatchCount (_metrics st) + 1)%float
    /\ (forall n : Z,
          (0 <= n < 2 ^ 53)%Z ->
          fuzzyMatchCount (_metrics st) = num_of_Z n ->
          fuzzyMatchCount (_metrics st') = num_of_Z (n + 1))
    /\ st' = incrementFuzzyCount st
    /\ forall (target : jsstring) (config : FuzzyMatchConfig),
         snd (match_step query target config st) = st.
Proof.
  intros T query title_ url_ st.
  assert (Hst : snd (calculateAdvancedMatchScore query title_ url_ st)
                = incrementFuzzyCount st).
  { unfold calculateAdvancedMatchScore.
    repeat match goal with
           | |- context [if ?b then _ else _] => destruct b
           end; reflexivity. }
  cbv zeta. rewrite Hst. split; [reflexivity|].
  split; [|split; [reflexivity|reflexivity]].
  intros n Hn Hc. cbn [incrementFuzzyCount with_metrics _metrics
                        fuzzyMatchCount]. unfold incr.
  rewrite Hc. apply num_of_Z_succ. exact Hn.
Qed.

(** The theorem at the initial state: the counter holds 0 and holds 1
    after the call. *)
Lemma calculateAdvancedMatchScore_counts_once_witness :
  (0 <= 0 < 2 ^ 53)%Z
  /\ fuzzyMatchCount
       (_metrics (snd (calculateAdvancedMatchScore
                         (js "naruto") (js "Naruto Shippuden")
                         (js "https://darkmahou.io/naruto-shippuden/")
                         (State (T := unit) [] initialMetrics))))
     = num_of_Z 1.
Proof.
  assert (Hn : (0 <= 0 < 2 ^ 53)%Z) by (split; [apply Z.le_refl|reflexivity]).
  split; [exact Hn|].
  exact (proj1 (proj2 (calculateAdvancedMatchScore_counts_once
                         (js "naruto") (js "Naruto Shippuden")
                         (js "https://darkmahou.io/naruto-shippuden/")
                         (State (T := unit) [] initialMetrics)))
               0%Z Hn eq_refl).
Defined.

End FuzzyCounter.

(** ** PerformanceCache.set *)

Section CacheEviction.

Import PerformanceCache Config.

Lemma str_eqb_eq : forall a b : jsstring, str_eqb a b = true <-> a = b.
Proof.
  induction a as [|x a IH]; destruct b as [|y b]; cbn; split; intro H;
    try reflexivity; try discriminate.
  - apply andb_true_iff in H. destruct H as [Hxy Hab].
    apply N.eqb_eq in Hxy. apply IH in Hab. congruence.
  - injection H as -> ->. rewrite N.eqb_refl. apply IH. reflexivity.
Qed.

Lemma str_eqb_refl : forall a : jsstring, str_eqb a a = true.
Proof. intro a. apply str_eqb_eq. reflexivity. Qed.

Lemma str_eqb_neq : forall a b : jsstring, str_eqb a b = false <-> a <> b.
Proof.
  intros a b. split.
  - intros H ->. rewrite str_eqb_refl in H. discriminate.
  - intro H. destruct (str_eqb a b) eqn:E; [|reflexivity].
    apply str_eqb_eq in E. contradiction.
Qed.

Variable T : Type.

Implicit Types (m : JSMap T) (k : jsstring) (e : CacheEntry T).

Lemma map_get_set_same : forall m k e, map_get k (map_set k e m) = Some e.
Proof.
  induction m as [|[k' e'] m IH]; intros k e; cbn.
  - rewrite str_eqb_refl. reflexivity.
  - destruct (str_eqb k' k) eqn:E; cbn; rewrite E; [reflexivity|apply IH].
Qed.

Lemma map_get_set_other :
  forall m k k' e, k' <> k -> map_get k' (map_set k e m) = map_get k' m.
Proof.
  induction m as [|[k1 e1] m IH]; intros k k' e Hne; cbn.
  - assert (E : str_eqb k k' = false) by (apply str_eqb_neq; congruence).
    rewrite E. reflexivity.
  - destruct (str_eqb k1 k) eqn:E; cbn.
    + apply str_eqb_eq in E. subst k1.
      assert (E' : str_eqb k k' = false) by (apply str_eqb_neq; congruence).
      rewrite E'. reflexivity.
    + destruct (str_eqb k1 k'); [reflexivity|]. apply IH. exact Hne.
Qed.

Lemma keys_map_set_present :
  forall m k e, In k (keys m) -> keys (map_set k e m) = keys m.
Proof.
  induction m as [|[k1 e1] m IH]; intros k e Hin; cbn in *.
  - contradiction.
  - destruct (str_eqb k1 k) eqn:E; cbn; [reflexivity|].
    f_equal. apply IH. destruct Hin as [->|Hin]; [|exact Hin].
    rewrite str_eqb_refl in E. discriminate.
Qed.

Lemma keys_map_set_new :
  forall m k e, ~ In k (keys m) -> keys (map_set k e m) = keys m ++ [k].
Proof.
  induction m as [|[k1 e1] m IH]; intros k e Hin; cbn in *.
  - reflexivity.
  - destruct (str_eqb k1 k) eqn:E; cbn.
    + apply str_eqb_eq in E. exfalso. apply Hin. left. exact E.
    + f_equal. apply IH. intro H. apply Hin. right. exact H.
Qed.

Lemma map_delete_absent :
  forall m k, ~ In k (keys m) -> map_delete k m = m.
Proof.
  induction m as [|[k1 e1] m IH]; intros k Hin; cbn in *.
  - reflexivity.
  - assert (E : str_eqb k1 k = false).
    { apply str_eqb_neq. intro H. apply Hin. left. exact H. }
    rewrite E. cbn. f_equal. apply IH. intro H. apply Hin. right. exact H.
Qed.

Lemma map_get_absent : forall m k, ~ In k (keys m) -> map_get k m = None.
Proof.
  induction m as [|[k1 e1] m IH]; intros k Hin; cbn in *.
  - reflexivity.
  - assert (E : str_eqb k1 k = false).
    { apply str_eqb_neq. intro H. apply Hin. left. exact H. }
    rewrite E. apply IH. intro H. apply Hin. right. exact H.
Qed.

(** What [evict] does to a map whose keys are distinct. *)
Lemma evict_below : forall m, (List.length m < 100)%nat -> evict m = m.
Proof.
  intros m H. unfold evict, MAX_CACHE_SIZE.
  destruct (100 <=? List.length m)%nat eqn:E; [|reflexivity].
  apply Nat.leb_le in E. lia.
Qed.

Lemma evict_full :
  forall k0 e0 (more : JSMap T),
    NoDup (keys ((k0, e0) :: more)) ->
    (100 <= List.length ((k0, e0) :: more))%nat ->
    k0 <> [] ->
    evict ((k0, e0) :: more) = more.
Proof.
  intros k0 e0 more Hnd Hlen Hk0. unfold evict, MAX_CACHE_SIZE.
  destruct (100 <=? List.length ((k0, e0) :: more))%nat eqn:E.
  - cbn [first_key]. destruct k0 as [|x k0]; [contradiction|].
    cbn. rewrite N.eqb_refl, str_eqb_refl. cbn.
    apply map_delete_absent. cbn in Hnd. inversion Hnd. assumption.
  - apply Nat.leb_gt in E. lia.
Qed.

Lemma NoDup_snoc :
  forall (l : list jsstring) (x : jsstring),
    NoDup l -> ~ In x l -> NoDup (l ++ [x]).
Proof.
  induction l as [|y l IH]; intros x Hnd Hin; cbn.
  - constructor; [intros []|constructor].
  - inversion Hnd as [|? ? Hy Hl]; subst. constructor.
    + rewrite in_app_iff. intros [H|[H|[]]]; [contradiction|].
      apply Hin. left. symmetry. exact H.
    + apply IH; [exact Hl|]. intro H. apply Hin. right. exact H.
Qed.

Lemma NoDup_keys_map_set :
  forall m k e, NoDup (keys m) -> NoDup (keys (map_set k e m)).
Proof.
  intros m k e Hnd.
  destruct (in_dec (list_eq_dec N.eq_dec) k (keys m)) as [Hin|Hin].
  - rewrite keys_map_set_present by exact Hin. exact Hnd.
  - rewrite keys_map_set_new by exact Hin. apply NoDup_snoc; assumption.
Qed.

Lemma NoDup_keys_map_delete :
  forall m k, NoDup (keys m) -> NoDup (keys (map_delete k m)).
Proof.
  induction m as [|[k1 e1] m IH]; intros k Hnd; cbn in *; [constructor|].
  inversion Hnd as [|? ? Hk1 Hm]; subst.
  destruct (negb (str_eqb k1 k)); cbn.
  - constructor; [|apply IH; exact Hm].
    intro Hin. apply Hk1. unfold keys, map_delete in Hin.
    apply in_map_iff in Hin.
    destruct Hin as [[k2 e2] [Heq Hin]]. apply filter_In in Hin.
    apply in_map_iff. exists (k2, e2). tauto.
  - apply IH. exact Hm.
Qed.

Lemma NoDup_keys_evict : forall m, NoDup (keys m) -> NoDup (keys (evict m)).
Proof.
  intros m Hnd. unfold evict.
  destruct (MAX_CACHE_SIZE <=? List.length m)%nat; [|exact Hnd].
  destruct (first_key m) as [[|x k0]|]; try exact Hnd.
  apply NoDup_keys_map_delete. exact Hnd.
Qed.

Lemma distinctb_NoDup : forall l, distinctb l = true -> NoDup l.
Proof.
  induction l as [|x l IH]; cbn; intro H.
  - constructor.
  - apply andb_true_iff in H. destruct H as [Hx Hl].
    constructor; [|apply IH; exact Hl].
    intro Hin. rewrite negb_true_iff in Hx.
    assert (E : existsb (str_eqb x) l = true).
    { apply existsb_exists. exists x. split; [exact Hin|apply str_eqb_refl]. }
    congruence.
Defined.

(** C3 (amended). On a map with distinct keys, [set] stores the entry under
    the canonical key and leaves the metrics alone.  With fewer than 100
    entries nothing is evicted.  With 100 entries or more, and an oldest key
    that is not the empty string, exactly the oldest-inserted entry is
    evicted before the store, whether or not the key being set is already
    present: the keys that remain are the other old keys in their order,
    followed by the key being set when it was not among them, and the
    entries of all other keys are unchanged. *)
Theorem set_evicts_oldest_at_capacity :
  forall (k : jsstring) (d : T) (now : Z) (st : state T),
    NoDup (keys (_cache st)) ->
    let ck := createCacheKey k in
    let entry := Entry d now ck in
    let st' := set k d now st in
    map_get ck (_cache st') = Some entry
    /\ _metrics st' = _metrics st
    /\ NoDup (keys (_cache st'))
    /\ ((List.length (_cache st) < 100)%nat ->
        _cache st' = map_set ck entry (_cache st))
    /\ (forall k0 e0 more,
          _cache st = (k0, e0) :: more ->
          (100 <= List.length (_cache st))%nat ->
          k0 <> [] ->
          (k0 <> ck -> map_get k0 (_cache st') = None)
          /\ (In ck (keys more) -> keys (_cache st') = keys more)
          /\ (~ In ck (keys more) -> keys (_cache st') = keys more ++ [ck])
          /\ (forall k', k' <> ck -> k' <> k0 ->
                map_get k' (_cache st') = map_get k' (_cache st))).
Proof.
  intros k d now st Hnd ck entry st'.
  assert (Hc : _cache st' = map_set ck entry (evict (_cache st)))
    by reflexivity.
  split; [rewrite Hc; apply map_get_set_same|].
  split; [reflexivity|].
  split.
  { rewrite Hc. apply NoDup_keys_map_set, NoDup_keys_evict. exact Hnd. }
  split.
  { intro Hlt. rewrite Hc, evict_below by exact Hlt. reflexivity. }
  intros k0 e0 more Hm Hlen Hk0.
  rewrite Hm in Hnd, Hlen.
  assert (He : evict (_cache st) = more)
    by (rewrite Hm; apply evict_full; assumption).
  rewrite Hc, He.
  assert (Hk0more : ~ In k0 (keys more))
    by (cbn in Hnd; inversion Hnd; assumption).
  split; [|split; [|split]].
  - intro Hne. rewrite map_get_set_other by exact Hne.
    apply map_get_absent. exact Hk0more.
  - apply keys_map_set_present.
  - apply keys_map_set_new.
  - intros k' Hck Hk'. rewrite map_get_set_other by exact Hck.
    rewrite Hm. cbn.
    assert (E : str_eqb k0 k' = false) by (apply str_eqb_neq; congruence).
    rewrite E. reflexivity.
Qed.

End CacheEviction.

Section CacheExamples.

Import PerformanceCache Config.

(** After 100 distinct keys, setting the key "k050", which is present,
    evicts the oldest key "k000" all the same. *)
Lemma set_present_key_evicts :
  let st := filled 100 in
  let st' := set (key_of 50) 7%nat 1000 st in
  List.length (_cache st) = 100%nat
  /\ createCacheKey (key_of 50) = key_of 50
  /\ In (key_of 50) (keys (_cache st))
  /\ map_get (key_of 0) (_cache st) = Some (Entry 0%nat 0 (key_of 0))
  /\ map_get (key_of 0) (_cache st') = None.
Proof.
  vm_compute. repeat split. do 50 right. left. reflexivity.
Qed.

(** The theorem at that state: the 100 keys are distinct, the oldest key
    "k000" is not empty and differs from "k050", so it is gone after the
    call. *)
Lemma set_evicts_oldest_at_capacity_witness :
  NoDup (keys (_cache (filled 100)))
  /\ map_get (key_of 0) (_cache (set (key_of 50) 7%nat 1000 (filled 100)))
     = None.
Proof.
  assert (Hnd : NoDup (keys (_cache (filled 100))))
    by (apply distinctb_NoDup; vm_compute; reflexivity).
  split; [exact Hnd|].
  destruct (set_evicts_oldest_at_capacity (key_of 50) 7%nat 1000
              (filled 100) Hnd) as (_ & _ & _ & _ & Hfull).
  refine (proj1 (Hfull (key_of 0) (Entry 0%nat 0 (key_of 0))
                       (tl (_cache (filled 100))) _ _ _) _).
  - vm_compute. reflexivity.
  - vm_compute. repeat constructor.
  - discriminate.
  - vm_compute. discriminate.
Defined.

End CacheExamples.

(** ** LevenshteinCalculator.calculate *)

Section EditScripts.

Import EditDistance.

Local Open Scope nat_scope.

Lemma within_mono :
  forall n m x y, within n x y -> n <= m -> within m x y.
Proof. intros n m x y (k & Hk & He) Hnm. exists k. split; [lia|exact He]. Qed.

Lemma edit_within : forall n x y, edit n x y -> within n x y.
Proof. intros n x y H. exists n. split; [lia|exact H]. Qed.

Lemma within_keep :
  forall c n x y, within n x y -> within n (c :: x) (c :: y).
Proof.
  intros c n x y (k & Hk & He). exists k. split; [exact Hk|].
  apply edit_keep. exact He.
Qed.

Lemma within_subst :
  forall c d n x y, within n x y -> within (S n) (c :: x) (d :: y).
Proof.
  intros c d n x y (k & Hk & He). exists (S k). split; [lia|].
  apply edit_subst. exact He.
Qed.

Lemma within_delete :
  forall c n x y, within n x y -> within (S n) (c :: x) y.
Proof.
  intros c n x y (k & Hk & He). exists (S k). split; [lia|].
  apply edit_delete. exact He.
Qed.

Lemma within_insert :
  forall d n x y, within n x y -> within (S n) x (d :: y).
Proof.
  intros d n x y (k & Hk & He). exists (S k). split; [lia|].
  apply edit_insert. exact He.
Qed.

Lemma edit_refl : forall x, edit 0 x x.
Proof. induction x; [apply edit_nil|apply edit_keep; assumption]. Qed.

Lemma edit_sym : forall n x y, edit n x y -> edit n y x.
Proof.
  induction 1.
  - apply edit_nil.
  - apply edit_keep. assumption.
  - apply edit_subst. assumption.
  - apply edit_insert. assumption.
  - apply edit_delete. assumption.
Qed.

(** Dropping the first character of the source costs at most one more. *)
Lemma edit_uncons_l :
  forall n cx y, edit n cx y ->
  forall c x, cx = c :: x -> within (S n) x y.
Proof.
  induction 1 as [|c0 x0 y0 n0 H IH|c0 d0 x0 y0 n0 H IH
                  |c0 x0 y0 n0 H IH|d0 x0 y0 n0 H IH];
    intros c x E.
  - discriminate.
  - injection E as -> ->. apply within_insert, edit_within. exact H.
  - injection E as -> ->.
    apply within_mono with (n := S n0); [|lia].
    apply within_insert, edit_within. exact H.
  - injection E as -> ->.
    apply within_mono with (n := n0); [|lia]. apply edit_within. exact H.
  - apply within_insert. apply IH with (c := c). exact E.
Qed.

Lemma edit_uncons_r :
  forall n x d y, edit n x (d :: y) -> within (S n) x y.
Proof.
  intros n x d y H. apply edit_sym in H.
  destruct (edit_uncons_l H eq_refl) as (k & Hk & He).
  exists k. split; [exact Hk|]. apply edit_sym. exact He.
Qed.

(** Scripts compose: the costs add up. *)
Lemma edit_compose :
  forall n x y, edit n x y ->
  forall m z, edit m y z -> within (n + m) x z.
Proof.
  induction 1 as [|c x y n H IH|c d x y n H IH|c x y n H IH|d x y n H IH].
  - intros m z Hz. apply edit_within. exact Hz.
  - intros m z Hz. remember (c :: y) as cy eqn:E. revert y H IH E.
    induction Hz as [|c1 y1 z1 m1 Hz IHz|c1 d1 y1 z1 m1 Hz IHz
                     |c1 y1 z1 m1 Hz IHz|d1 y1 z1 m1 Hz IHz];
      intros y H IH E.
    + discriminate.
    + injection E as -> ->. apply within_keep. apply IH. exact Hz.
    + injection E as -> ->. rewrite Nat.add_succ_r.
      apply within_subst. apply IH. exact Hz.
    + injection E as -> ->. rewrite Nat.add_succ_r.
      apply within_delete. apply IH. exact Hz.
    + rewrite Nat.add_succ_r. apply within_insert.
      apply IHz with (y := y); assumption.
  - intros m z Hz. remember (d :: y) as dy eqn:E. revert y H IH E.
    induction Hz as [|c1 y1 z1 m1 Hz IHz|c1 d1 y1 z1 m1 Hz IHz
                     |c1 y1 z1 m1 Hz IHz|d1 y1 z1 m1 Hz IHz];
      intros y H IH E.
    + discriminate.
    + injection E as -> ->. cbn. apply within_subst. apply IH. exact Hz.
    + injection E as -> ->.
      apply within_mono with (n := S (n + m1)); [|lia].
      apply within_subst. apply IH. exact Hz.
    + injection E as -> ->.
      apply within_mono with (n := S (n + m1)); [|lia].
      apply within_delete. apply IH. exact Hz.
    + apply within_mono with (n := S (S n + m1)); [|lia].
      apply within_insert. apply IHz with (y := y); assumption.
  - intros m z Hz. cbn. apply within_delete. apply IH. exact Hz.
  - intros m z Hz. remember (d :: y) as dy eqn:E. revert y H IH E.
    induction Hz as [|c1 y1 z1 m1 Hz IHz|c1 d1 y1 z1 m1 Hz IHz
                     |c1 y1 z1 m1 Hz IHz|d1 y1 z1 m1 Hz IHz];
      intros y H IH E.
    + discriminate.
    + injection E as -> ->. cbn. apply within_insert. apply IH. exact Hz.
    + injection E as -> ->.
      apply within_mono with (n := S (n + m1)); [|lia].
      apply within_insert. apply IH. exact Hz.
    + injection E as -> ->.
      apply within_mono with (n := n + m1); [|lia]. apply IH. exact Hz.
    + apply within_mono with (n := S (S n + m1)); [|lia].
      apply within_insert. apply IHz with (y := y); assumption.
Qed.

(** Appending at the end instead of the front. *)
Lemma edit_snoc_keep :
  forall c n x y, edit n x y -> edit n (x ++ [c]) (y ++ [c]).
Proof.
  induction 1; cbn.
  - apply edit_keep, edit_nil.
  - apply edit_keep. assumption.
  - apply edit_subst. assumption.
  - apply edit_delete. assumption.
  - apply edit_insert. assumption.
Qed.

Lemma edit_snoc_subst :
  forall c d n x y, edit n x y -> edit (S n) (x ++ [c]) (y ++ [d]).
Proof.
  induction 1; cbn.
  - apply edit_subst, edit_nil.
  - apply edit_keep. assumption.
  - apply edit_subst. assumption.
  - apply edit_delete. assumption.
  - apply edit_insert. assumption.
Qed.

Lemma edit_snoc_delete :
  forall c n x y, edit n x y -> edit (S n) (x ++ [c]) y.
Proof.
  induction 1; cbn.
  - apply edit_delete, edit_nil.
  - apply edit_keep. assumption.
  - apply edit_subst. assumption.
  - apply edit_delete. assumption.
  - apply edit_insert. assumption.
Qed.

Lemma edit_snoc_insert :
  forall d n x y, edit n x y -> edit (S n) x (y ++ [d]).
Proof.
  induction 1; cbn.
  - apply edit_insert, edit_nil.
  - apply edit_keep. assumption.
  - apply edit_subst. assumption.
  - apply edit_delete. assumption.
  - apply edit_insert. assumption.
Qed.

Lemma edit_rev : forall n x y, edit n x y -> edit n (rev x) (rev y).
Proof.
  induction 1; cbn.
  - apply edit_nil.
  - apply edit_snoc_keep. assumption.
  - apply edit_snoc_subst. assumption.
  - apply edit_snoc_delete. assumption.
  - apply edit_snoc_insert. assumption.
Qed.

(** The recursive distance is the cost of a cheapest script. *)
Lemma lev_cons :
  forall c d x y,
    lev (c :: x) (d :: y)
    = if (c =? d)%N then lev x y
      else S (Nat.min (lev x y) (Nat.min (lev (c :: x) y) (lev x (d :: y)))).
Proof. reflexivity. Qed.

Lemma lev_nil_l : forall y, lev [] y = List.length y.
Proof. reflexivity. Qed.

Lemma lev_nil_r : forall x, lev x [] = List.length x.
Proof. destruct x; reflexivity. Qed.

Lemma edit_inserts : forall y, edit (List.length y) [] y.
Proof. induction y; cbn; [apply edit_nil|apply edit_insert; assumption]. Qed.

Lemma edit_deletes : forall x, edit (List.length x) x [].
Proof. induction x; cbn; [apply edit_nil|apply edit_delete; assumption]. Qed.

Lemma lev_edit : forall x y, edit (lev x y) x y.
Proof.
  induction x as [|c x IHx]; intro y.
  - apply edit_inserts.
  - induction y as [|d y IHy].
    + rewrite lev_nil_r. apply edit_deletes.
    + rewrite lev_cons. destruct (N.eqb_spec c d) as [->|Hne].
      * apply edit_keep. apply IHx.
      * destruct (Nat.min_spec (lev x y)
                    (Nat.min (lev (c :: x) y) (lev x (d :: y))))
          as [[_ ->]|[_ ->]].
        -- apply edit_subst. apply IHx.
        -- destruct (Nat.min_spec (lev (c :: x) y) (lev x (d :: y)))
             as [[_ ->]|[_ ->]].
           ++ apply edit_insert. apply IHy.
           ++ apply edit_delete. apply IHx.
Qed.

Lemma edit_length_l : forall n x y, edit n x y -> List.length x <= n + List.length y.
Proof. induction 1; cbn; lia. Qed.

Lemma edit_length_r : forall n x y, edit n x y -> List.length y <= n + List.length x.
Proof. induction 1; cbn; lia. Qed.

Lemma edit_lev : forall x y n, edit n x y -> lev x y <= n.
Proof.
  induction x as [|c x IHx]; intros y n H.
  - rewrite lev_nil_l. apply edit_length_r in H. cbn in H. lia.
  - revert n H. induction y as [|d y IHy]; intros n H.
    + rewrite lev_nil_r. apply edit_length_l in H. cbn in *. lia.
    + rewrite lev_cons. destruct (N.eqb_spec c d) as [->|Hne].
      * inversion H as [|? ? ? ? H'|? ? ? ? n' H'|? ? ? n' H'|? ? ? n' H'];
          subst.
        -- apply IHx. exact H'.
        -- apply IHx in H'. lia.
        -- destruct (edit_uncons_r H') as (k & Hk & He).
           apply IHx in He. lia.
        -- destruct (edit_uncons_l H' eq_refl) as (k & Hk & He).
           apply IHx in He. lia.
      * inversion H as [|? ? ? ? H'|? ? ? ? n' H'|? ? ? n' H'|? ? ? n' H'];
          subst.
        -- contradiction.
        -- apply IHx in H'. lia.
        -- apply IHx in H'. lia.
        -- apply IHy in H'. lia.
Qed.

Lemma lev_refl : forall x, lev x x = 0.
Proof. intro x. pose proof (edit_lev (edit_refl x)). lia. Qed.

Lemma lev_sym : forall x y, lev x y = lev y x.
Proof.
  intros x y.
  pose proof (edit_lev (edit_sym (lev_edit x y))).
  pose proof (edit_lev (edit_sym (lev_edit y x))). lia.
Qed.

Lemma lev_triangle : forall x y z, lev x z <= lev x y + lev y z.
Proof.
  intros x y z.
  destruct (edit_compose (lev_edit x y) (lev_edit y z)) as (k & Hk & He).
  apply edit_lev in He. lia.
Qed.

(** The distance is at most the longer length. *)
Lemma lev_le_max :
  forall x y, lev x y <= Nat.max (List.length x) (List.length y).
Proof.
  induction x as [|c x IH]; intro y.
  - rewrite lev_nil_l. cbn. lia.
  - destruct y as [|d y]; [rewrite lev_nil_r; cbn; lia|].
    rewrite lev_cons. specialize (IH y). cbn [List.length].
    destruct (c =? d)%N; lia.
Qed.

End EditScripts.

Section Matrix.

Import LevenshteinCalculator EditDistance DistanceTable.

Local Open Scope nat_scope.

Lemma arr_set_length :
  forall (A : Type) (d v : A) (l : list A),
    arr_set d (List.length l) v l = l ++ [v].
Proof. induction l as [|x l IH]; cbn; [reflexivity|rewrite IH; reflexivity]. Qed.

Lemma arr_set_middle :
  forall (A : Type) (d v x : A) (pre post : list A),
    arr_set d (List.length pre) v (pre ++ x :: post) = pre ++ v :: post.
Proof.
  induction pre as [|y pre IH]; intro post; cbn;
    [reflexivity|rewrite IH; reflexivity].
Qed.

Lemma firstn_succ_snoc :
  forall (l : jsstring) (i : nat) (x : N),
    nth_error l i = Some x -> firstn (S i) l = firstn i l ++ [x].
Proof.
  induction l as [|y l IH]; intros [|i] x H; cbn in *; try discriminate.
  - injection H as ->. reflexivity.
  - f_equal. apply IH. exact H.
Qed.

Lemma get2_pre :
  forall (pre post : matrix_t) (i j : nat),
    i < List.length pre -> get2 (pre ++ post) i j = nth j (nth i pre []) 0%Z.
Proof. intros. unfold get2. rewrite app_nth1 by assumption. reflexivity. Qed.

Lemma get2_mid :
  forall (pre : matrix_t) (row : list Z) (post : matrix_t) (i j : nat),
    List.length pre = i -> get2 (pre ++ row :: post) i j = nth j row 0%Z.
Proof. intros. subst i. unfold get2. rewrite nth_middle. reflexivity. Qed.

Lemma set2_mid :
  forall (pre : matrix_t) (row : list Z) (post : matrix_t) (i j : nat) (v : Z),
    List.length pre = i ->
    set2 i j v (pre ++ row :: post) = pre ++ arr_set 0%Z j v row :: post.
Proof.
  intros. subst i. unfold set2. rewrite nth_middle, arr_set_middle.
  reflexivity.
Qed.

Variables a b : jsstring.

Lemma D_row0 : forall j, j <= (List.length a) -> D a b 0 j = Z.of_nat j.
Proof.
  intros j Hj. unfold D. cbn [firstn rev]. rewrite lev_nil_l.
  rewrite length_rev, length_firstn. f_equal. lia.
Qed.

Lemma D_col0 : forall i, i <= (List.length b) -> D a b i 0 = Z.of_nat i.
Proof.
  intros i Hi. unfold D. cbn [firstn rev]. rewrite lev_nil_r.
  rewrite length_rev, length_firstn. f_equal. lia.
Qed.

(** The recurrence the inner loop computes. *)
Lemma D_step :
  forall i j,
    i < (List.length b) -> j < (List.length a) ->
    D a b (S i) (S j)
    = if char_eqb (charAt b i) (charAt a j) then D a b i j
      else Z.min (D a b i j + 1)
                 (Z.min (D a b (S i) j + 1) (D a b i (S j) + 1)).
Proof.
  intros i j Hi Hj. unfold D, charAt.
  destruct (nth_error b i) as [bi|] eqn:Eb;
    [|apply nth_error_None in Eb; lia].
  destruct (nth_error a j) as [aj|] eqn:Ea;
    [|apply nth_error_None in Ea; lia].
  rewrite (firstn_succ_snoc _ _ Eb), (firstn_succ_snoc _ _ Ea).
  rewrite !rev_app_distr. cbn [rev app].
  rewrite lev_cons. cbn [char_eqb].
  destruct (bi =? aj)%N; [reflexivity|]. lia.
Qed.

Lemma nth_spec_row :
  forall i len j, j < len -> nth j (spec_row a b i len) 0%Z = D a b i j.
Proof.
  intros i len j Hj. unfold spec_row.
  rewrite (nth_indep _ 0%Z (D a b i 0))
    by (rewrite length_map, length_seq; exact Hj).
  rewrite map_nth, seq_nth by exact Hj. reflexivity.
Qed.

Lemma spec_row_length : forall i len, List.length (spec_row a b i len) = len.
Proof. intros. unfold spec_row. rewrite length_map, length_seq. reflexivity. Qed.

Lemma spec_row_S :
  forall i len, spec_row a b i (S len) = spec_row a b i len ++ [D a b i len].
Proof. intros. unfold spec_row. rewrite seq_S, map_app. reflexivity. Qed.

Lemma stub_spec_row : forall i, i <= (List.length b) -> stub i = spec_row a b i 1.
Proof. intros i Hi. unfold stub, spec_row. cbn. rewrite D_col0 by exact Hi. reflexivity. Qed.

(** The first loop: one row [[i]] per index. *)
Lemma init_rows_spec : init_rows (List.length b) = map stub (seq 0 (S (List.length b))).
Proof.
  unfold init_rows, for_range. rewrite Nat.sub_0_r.
  assert (H : forall n m0,
             fold_left (fun acc i => arr_set [] i [Z.of_nat i] acc)
                       (seq (List.length m0) n) m0
             = m0 ++ map stub (seq (List.length m0) n)).
  { induction n as [|n IH]; intro m0; cbn [seq fold_left map].
    - rewrite app_nil_r. reflexivity.
    - rewrite arr_set_length.
      replace (S (List.length m0))
        with (List.length (m0 ++ [[Z.of_nat (List.length m0)]]))
        by (rewrite length_app; cbn; lia).
      rewrite IH, <- app_assoc. reflexivity. }
  exact (H (S (List.length b)) []).
Qed.

(** The second loop: row 0 becomes [0, 1, ..., aLen]. *)
Lemma init_cols_spec :
  init_cols (List.length a) (init_rows (List.length b)) = full_row a b 0 :: map stub (seq 1 (List.length b)).
Proof.
  rewrite init_rows_spec. unfold init_cols, for_range. rewrite Nat.sub_0_r.
  cbn [seq map]. 
  assert (H : forall n row more,
             fold_left (fun acc j => set2 0 j (Z.of_nat j) acc)
                       (seq (List.length row) n) (row :: more)
             = (row ++ map Z.of_nat (seq (List.length row) n)) :: more).
  { induction n as [|n IH]; intros row more; cbn [seq fold_left map].
    - rewrite app_nil_r. reflexivity.
    - unfold set2 at 2. cbn [nth arr_set]. rewrite arr_set_length.
      replace (S (List.length row))
        with (List.length (row ++ [Z.of_nat (List.length row)]))
        by (rewrite length_app; cbn; lia).
      rewrite IH, <- app_assoc. reflexivity. }
  cbn [fold_left].
  change (set2 0 0 (Z.of_nat 0) (stub 0 :: map stub (seq 1 (List.length b))))
    with (stub 0 :: map stub (seq 1 (List.length b))).
  pose proof (H (List.length a) (stub 0) (map stub (seq 1 (List.length b))))
    as H0.
  cbn [List.length stub] in H0. rewrite H0. f_equal.
  unfold full_row, spec_row. cbn [seq map stub List.length app].
  rewrite D_row0 by lia. f_equal.
  apply map_ext_in. intros j Hj. apply in_seq in Hj.
  rewrite D_row0 by lia. reflexivity.
Qed.

(** The inner loop completes row [i], given the rows above it. *)
Lemma inner_loop_spec :
  forall (i : nat) (pre post : matrix_t),
    i < (List.length b) ->
    List.length pre = S i ->
    nth i pre [] = full_row a b i ->
    forall n, n <= (List.length a) ->
      fold_left (fun m' j => set2 (S i) j (cell a b m' (S i) j) m')
                (seq 1 n) (pre ++ spec_row a b (S i) 1 :: post)
      = pre ++ spec_row a b (S i) (S n) :: post.
Proof.
  intros i pre post Hi Hpre Hrow n.
  induction n as [|n IH]; intro Hn.
  - reflexivity.
  - rewrite seq_S, fold_left_app, IH by lia. cbn [fold_left Nat.add].
    assert (Hcell : cell a b (pre ++ spec_row a b (S i) (S n) :: post)
                         (S i) (S n) = D a b (S i) (S n)).
    { unfold cell. cbn [Nat.sub]. rewrite !Nat.sub_0_r.
      rewrite !(get2_pre pre _ (i := i)) by lia.
      rewrite (get2_mid pre _ _ (i := S i)) by exact Hpre.
      rewrite Hrow. unfold full_row. rewrite !nth_spec_row by lia.
      rewrite D_step by lia. reflexivity. }
    rewrite Hcell, (set2_mid pre _ _ (i := S i)) by exact Hpre.
    rewrite <- (spec_row_length (S i) (S n)) at 1.
    rewrite arr_set_length, <- spec_row_S. reflexivity.
Qed.

(** The outer loop completes the rows one after the other. *)
Lemma outer_loop_spec :
  forall n, n <= (List.length b) ->
    fold_left (fun m i => for_range 1 (List.length a)
                            (fun j m' => set2 i j (cell a b m' i j) m') m)
              (seq 1 n) (full_row a b 0 :: map stub (seq 1 (List.length b)))
    = map (full_row a b) (seq 0 (S n)) ++ map stub (seq (S n) ((List.length b) - n)).
Proof.
  induction n as [|n IH]; intro Hn.
  - cbn [seq fold_left map app]. rewrite Nat.sub_0_r. reflexivity.
  - rewrite seq_S, fold_left_app, IH by lia. cbn [fold_left Nat.add].
    replace ((List.length b) - n) with (S ((List.length b) - S n)) by lia.
    change (seq (S n) (S (List.length b - S n)))
      with (S n :: seq (S (S n)) (List.length b - S n)).
    rewrite map_cons, (stub_spec_row (i := S n)) by lia.
    unfold for_range. cbn [Nat.sub]. rewrite Nat.sub_0_r.
    rewrite inner_loop_spec with (i := n); try lia.
    + rewrite (seq_S (S n) 0), map_app, <- app_assoc. reflexivity.
    + rewrite length_map, length_seq. reflexivity.
    + rewrite (seq_S n 0), map_app. cbn [map Nat.add].
      rewrite <- (length_seq n 0) at 1.
      rewrite <- (length_map (full_row a b) (seq 0 n)) at 1.
      apply nth_middle.
Qed.

Lemma fill_spec :
  fill a b (full_row a b 0 :: map stub (seq 1 (List.length b)))
  = map (full_row a b) (seq 0 (S (List.length b))).
Proof.
  unfold fill. unfold for_range at 1. cbn [Nat.sub]. rewrite Nat.sub_0_r.
  rewrite outer_loop_spec by lia.
  rewrite Nat.sub_diag. cbn [seq map]. apply app_nil_r.
Qed.

(** The matrix computes the recursive distance of the reversed strings. *)
Lemma calculate_lev : calculate a b = Z.of_nat (lev (rev b) (rev a)).
Proof.
  assert (Hcell : get2 (map (full_row a b) (seq 0 (S (List.length b))))
                       (List.length b) (List.length a)
                  = Z.of_nat (lev (rev b) (rev a))).
  { rewrite (seq_S (List.length b) 0), map_app. cbn [map Nat.add].
    rewrite get2_mid by (rewrite length_map, length_seq; reflexivity).
    unfold full_row. rewrite nth_spec_row by lia.
    unfold D. rewrite !firstn_all. reflexivity. }
  unfold calculate. rewrite init_cols_spec, fill_spec. cbv zeta.
  rewrite Hcell. unfold isValidStringDistance.
  destruct (0 <=? Z.of_nat (lev (rev b) (rev a)))%Z eqn:E; [reflexivity|].
  apply Z.leb_gt in E. lia.
Qed.

End Matrix.

Section DistanceIsMetric.

Import LevenshteinCalculator EditDistance.

(** C8. [calculate] is the classic unit-cost edit distance: [calculate a b]
    is the cost of a cheapest script of insertions, deletions and
    substitutions from [a] to [b].  It is 0 from a string to itself, it is
    symmetric, it satisfies the triangle inequality, and it is 3 between
    "kitten" and "sitting". *)
Theorem calculate_is_edit_distance_metric :
  (forall a : jsstring, calculate a a = 0%Z)
  /\ (forall a b : jsstring, calculate a b = calculate b a)
  /\ (forall a b c : jsstring,
        (calculate a c <= calculate a b + calculate b c)%Z)
  /\ calculate (js "kitten") (js "sitting") = 3%Z
  /\ (forall a b : jsstring,
        (0 <= calculate a b)%Z
        /\ edit (Z.to_nat (calculate a b)) a b
        /\ forall n : nat, edit n a b -> (calculate a b <= Z.of_nat n)%Z).
Proof.
  split; [|split; [|split; [|split]]].
  - intro a. rewrite calculate_lev, lev_refl. reflexivity.
  - intros a b. rewrite !calculate_lev. f_equal. apply lev_sym.
  - intros a b c. rewrite !calculate_lev.
    pose proof (lev_triangle (rev c) (rev b) (rev a)). lia.
  - vm_compute. reflexivity.
  - intros a b. rewrite calculate_lev, Nat2Z.id.
    split; [lia|split].
    + pose proof (edit_sym (edit_rev (lev_edit (rev b) (rev a)))) as H.
      rewrite !rev_involutive in H. exact H.
    + intros n H. apply edit_rev, edit_sym, edit_lev in H. lia.
Qed.

(** The theorem at "kitten" and "sitting": the script that substitutes
    k by s and e by i and inserts g has three edits, so the distance is at
    most 3. *)
Lemma calculate_is_edit_distance_metric_witness :
  edit 3 (js "kitten") (js "sitting")
  /\ (calculate (js "kitten") (js "sitting") <= 3)%Z.
Proof.
  assert (H : edit 3 (js "kitten") (js "sitting")).
  { cbn [js]. apply edit_subst. do 3 apply edit_keep. apply edit_subst.
    apply edit_keep. apply edit_insert. apply edit_nil. }
  split; [exact H|].
  destruct calculate_is_edit_distance_metric as (_ & _ & _ & _ & Hmin).
  exact (proj2 (proj2 (Hmin (js "kitten") (js "sitting"))) 3%nat H).
Defined.

End DistanceIsMetric.

(** ** FuzzyStringMatcher.match on the empty query *)

Section EmptyQuery.

Import LevenshteinCalculator EditDistance FuzzyStringMatcher ScoreTable.

Lemma includes_nil : forall s : jsstring, includes s [] = true.
Proof. destruct s; reflexivity. Qed.

Lemma Z_gtb_num_5 : forall z : Z, Z_gtb_num z 5%float = (5 <? z)%Z.
Proof.
  intro z. unfold Z_gtb_num.
  change (Prim2SF 5%float) with (S754_finite false 5629499534213120 (-50)).
  cbv iota beta.
  change (0 <=? -50)%Z with false. cbv iota.
  change (2 ^ (- -50))%Z with 1125899906842624%Z.
  destruct (Z.ltb_spec 5629499534213120 (z * 1125899906842624));
    destruct (Z.ltb_spec 5 z); try reflexivity; lia.
Qed.

(** The exact strategy on a query that trims to the empty string. *)
Lemma exactMatch_blank_query :
  forall query target : jsstring,
    trim (toLowerCase query) = [] ->
    exactMatch query target 100%float
    = if str_eqb [] (trim (toLowerCase target)) then 100%float else 80%float.
Proof.
  intros query target Hq. unfold exactMatch. rewrite Hq, includes_nil.
  reflexivity.
Qed.

Lemma normalizedMatch_values :
  forall query target : jsstring,
    In (normalizedMatch query target 70%float)
       [70; 56; 49; 42; 35; 0]%float.
Proof.
  intros query target. unfold normalizedMatch.
  repeat match goal with
         | |- context [if ?b then _ else _] => destruct b
         end; cbn; tauto.
Qed.

Lemma phoneticMatch_values :
  forall query target : jsstring,
    In (phoneticMatch query target 60%float) [60; 42; 0]%float.
Proof.
  intros query target. unfold phoneticMatch.
  repeat match goal with
         | |- context [if ?b then _ else _] => destruct b
         end; cbn; tauto.
Qed.

(** The fuzzy strategy under the default configuration, as a function of
    the longer length and the distance. *)
Lemma fuzzyMatch_score_of :
  forall query target : jsstring,
    fuzzyMatch query target FUZZY_MATCH_CONFIG
    = if (5 <? calculate query target)%Z then 0%float
      else fuzzy_score_of
             (Z.of_nat (Nat.max (List.length query) (List.length target)))
             (calculate query target).
Proof.
  intros query target. unfold fuzzyMatch.
  cbn [maxDistance minSimilarity weights fuzzy FUZZY_MATCH_CONFIG].
  rewrite Z_gtb_num_5. reflexivity.
Qed.

Lemma calculate_empty_query :
  forall t : jsstring, calculate [] t = Z.of_nat (List.length t).
Proof.
  intro t. rewrite calculate_lev. cbn [rev]. rewrite lev_nil_r, length_rev.
  reflexivity.
Qed.

(** The fuzzy strategy never beats 80 on strings of ECMAScript. *)
Lemma fuzzyMatch_at_most_80 :
  forall query target : jsstring,
    within_max_length query ->
    within_max_length target ->
    at_most_80 (fuzzyMatch query target FUZZY_MATCH_CONFIG) = true.
Proof.
  intros query target Hq Ht. unfold within_max_length in Hq, Ht.
  change MAX_STRING_LENGTH with 9007199254740991%Z in Hq, Ht.
  rewrite fuzzyMatch_score_of, calculate_lev.
  set (d := lev (rev target) (rev query)).
  destruct (Z.ltb_spec 5 (Z.of_nat d)) as [Hd|Hd]; [reflexivity|].
  pose proof (lev_le_max (rev target) (rev query)) as Hmax.
  rewrite !length_rev in Hmax. fold d in Hmax.
  apply fuzzy_score_at_most_80.
  - lia.
  - change (2 ^ 53)%Z with 9007199254740992%Z. lia.
Qed.

(** On the empty query the distance is the length of the target, so the
    bound needs no assumption on the target. *)
Lemma fuzzyMatch_empty_at_most_80 :
  forall target : jsstring,
    at_most_80 (fuzzyMatch [] target FUZZY_MATCH_CONFIG) = true.
Proof.
  intro target. rewrite fuzzyMatch_score_of, calculate_empty_query.
  destruct (Z.ltb_spec 5 (Z.of_nat (List.length target))) as [Hd|Hd];
    [reflexivity|].
  apply fuzzy_score_at_most_80.
  - cbn [List.length]. lia.
  - change (2 ^ 53)%Z with 9007199254740992%Z. cbn [List.length]. lia.
Qed.

(** The loop of [match] when the exact strategy scores 80 and the fuzzy
    strategy does not beat it. *)
Lemma best_of_from_80 :
  forall f n p : num,
    at_most_80 f = true ->
    In n [70; 56; 49; 42; 35; 0]%float ->
    In p [60; 42; 0]%float ->
    best_of [fun _ => 80%float; fun _ => f; fun _ => n; fun _ => p] 0%float
    = 80%float.
Proof.
  intros f n p Hf Hn Hp. unfold at_most_80 in Hf.
  apply andb_true_iff in Hf. destruct Hf as [H1 H2].
  apply negb_true_iff in H1, H2.
  cbn [best_of].
  change (0 <? 80)%float with true. change (80 =? 100)%float with false.
  cbv iota. rewrite H1, H2.
  cbn [In] in Hn, Hp.
  repeat match goal with
         | H : _ \/ _ |- _ => destruct H as [H|H]
         | H : False |- _ => destruct H
         end;
    subst n p; reflexivity.
Qed.

(** The score of [match] once the exact strategy has given its score to a
    query that trims to the empty string and the fuzzy strategy does not
    beat 80. *)
Lemma match_blank_query :
  forall query target : jsstring,
    trim (toLowerCase query) = [] ->
    at_most_80 (fuzzyMatch query target FUZZY_MATCH_CONFIG) = true ->
    match_default query target
    = if str_eqb [] (trim (toLowerCase target)) then 100%float else 80%float.
Proof.
  intros query target Hq Hf.
  assert (He := @exactMatch_blank_query query target Hq).
  assert (Hn := normalizedMatch_values query target).
  assert (Hp := phoneticMatch_values query target).
  unfold match_default, match_, strategies.
  cbn [weights FUZZY_MATCH_CONFIG exact normalized phonetic].
  destruct (str_eqb [] (trim (toLowerCase target))).
  - cbn [best_of]. rewrite He. reflexivity.
  - rewrite He. set (b := best_of _ _).
    assert (Hb : b = 80%float) by exact (@best_of_from_80 _ _ _ Hf Hn Hp).
    rewrite Hb. reflexivity.
Qed.

(** C10. Under the default configuration a query that is empty or holds
    white space only is never rejected.  For every target,
    [match("", target)] is at least 80, and exactly 100 when the target
    trims to the empty string.  The same holds for every query that trims
    to the empty string, against every target: the score of [match] is 100
    when the target trims to the empty string too, and 80 otherwise (the
    strings being strings of ECMAScript, of at most [2^53 - 1] code units).
    The reason is the exact strategy: a query that trims to the empty
    string is contained in every target, which earns
    [weights.exact * 0.8 = 80], or [weights.exact = 100] when the target
    trims to the empty string as well; no later strategy beats that. *)
Theorem match_empty_query_at_least_80 :
  (forall target : jsstring,
     (80 <=? match_default [] target)%float = true
     /\ (trim (toLowerCase target) = [] ->
         match_default [] target = 100%float))
  /\ (forall query target : jsstring,
        trim (toLowerCase query) = [] ->
        within_max_length query ->
        within_max_length target ->
        (80 <=? match_default query target)%float = true
        /\ match_default query target
           = (if str_eqb [] (trim (toLowerCase target))
              then 100%float else 80%float))
  /\ (forall query target : jsstring,
        trim (toLowerCase query) = [] ->
        exactMatch query target (exact (weights FUZZY_MATCH_CONFIG))
        = if str_eqb [] (trim (toLowerCase target))
          then 100%float else (100 * 0.8)%float).
Proof.
  split; [|split].
  - intro target.
    rewrite (match_blank_query [] target eq_refl
               (fuzzyMatch_empty_at_most_80 target)).
    split.
    + destruct (str_eqb [] (trim (toLowerCase target))); reflexivity.
    + intros ->. reflexivity.
  - intros query target Hq Hlq Hlt.
    rewrite (match_blank_query query target Hq
               (fuzzyMatch_at_most_80 Hlq Hlt)).
    split; [|reflexivity].
    destruct (str_eqb [] (trim (toLowerCase target))); reflexivity.
  - intros query target Hq. apply exactMatch_blank_query. exact Hq.
Qed.

(** The theorem at a query of 1200 spaces and the target "naruto": the
    query trims to the empty string and the score is 80. *)
Lemma match_empty_query_at_least_80_witness :
  trim (toLowerCase (repeat 32 1200)) = []
  /\ within_max_length (repeat 32 1200)
  /\ within_max_length (js "naruto")
  /\ match_default (repeat 32 1200) (js "naruto") = 80%float.
Proof.
  assert (Hq : trim (toLowerCase (repeat 32 1200)) = [])
    by (vm_compute; reflexivity).
  assert (Hlq : within_max_length (repeat 32 1200))
    by (vm_compute; discriminate).
  assert (Hlt : within_max_length (js "naruto"))
    by (vm_compute; discriminate).
  split; [exact Hq|]. split; [exact Hlq|]. split; [exact Hlt|].
  exact (proj2 (proj1 (proj2 match_empty_query_at_least_80)
                  (repeat 32 1200) (js "naruto") Hq Hlq Hlt)).
Defined.

End EmptyQuery.

(** ** Searching with the matcher *)

Section SearchFacts.

Local Open Scope nat_scope.

Lemma or_else_None_r : forall (A : Type) (a : option A), or_else a None = a.
Proof. intros A [x|]; reflexivity. Qed.

(** Every result of a search is a match at some position of the subject,
    started with no capture. *)
Lemma search_from_sound :
  forall (p : pattern) (s : jsstring) (i : nat) (pv : option N) (m : rmatch),
    search_from p i pv s = Some m ->
    exists st st',
      caps st = []
      /\ (exists pre, s = pre ++ rest st /\ prev st = last_of pre pv)
      /\ Matches (p_icase p) (p_body p) st st'
      /\ m_caps m = caps st' /\ m_end m = st'
      /\ m_text m = taken st st'.
Proof.
  intros p s. induction s as [|c s IH]; intros i pv m H; cbn in H.
  - rewrite or_else_None_r in H. unfold match_at in H.
    apply run_sound in H. destruct H as (st' & HM & H).
    injection H as <-. exists (MState pv [] []), st'. cbn.
    split; [reflexivity|]. split; [exists []; split; reflexivity|].
    split; [exact HM|]. repeat split.
  - apply or_else_Some in H. destruct H as [H|[_ H]].
    + unfold match_at in H.
      apply run_sound in H. destruct H as (st' & HM & H).
      injection H as <-. exists (MState pv (c :: s) []), st'. cbn.
      split; [reflexivity|]. split; [exists []; split; reflexivity|].
      split; [exact HM|]. repeat split.
    + apply IH in H.
      destruct H as (st & st' & Hc & (pre & Hp & Hv) & HM & H1 & H2 & H3).
      exists st, st'. repeat split; try assumption.
      exists (c :: pre). cbn. rewrite Hp. split; [reflexivity|exact Hv].
Qed.

Lemma search_from_head :
  forall (p : pattern) (i : nat) (pv : option N) (s : jsstring) (m : rmatch),
    match_at p i (MState pv s []) = Some m -> search_from p i pv s = Some m.
Proof.
  intros p i pv s m H. destruct s; cbn [search_from]; rewrite H; reflexivity.
Qed.

Lemma last_of_None :
  forall (w : jsstring) (pv : option N), last_of w pv = None -> w = [].
Proof.
  intros w pv H. destruct w as [|x w]; [reflexivity|]. exfalso.
  cbn in H. revert x H. induction w as [|y w IH]; intros x H; cbn in H.
  - discriminate.
  - apply IH in H. exact H.
Qed.

(** [n] matches of a character class in a row read [n] code units of the
    class. *)
Lemma iter_cls :
  forall (icase : bool) (p : N -> bool) (n : nat) (st st' : mstate),
    iter n (Matches icase (Cls p)) st st' ->
    exists w, rest st = w ++ rest st' /\ List.length w = n
              /\ forallb p w = true.
Proof.
  intros icase p. induction n as [|n IH]; intros st st' H; cbn in H.
  - subst st'. exists []. repeat split.
  - destruct H as (st1 & (x & Hr & Hx & Hst1) & Hit).
    apply IH in Hit. destruct Hit as (w & Hw & Hl & Hp).
    exists (x :: w). cbn. rewrite Hr, Hw, Hl, Hx, Hp. repeat split.
Qed.

(** A quantifier [{n,n}] over a character class reads exactly the [n] code
    units in front of it when they are all in the class. *)
Lemma rep_exact :
  forall (icase : bool) (R : Type) (p : N -> bool) (n : nat)
         (k : mstate -> option R) (s : jsstring) (cs : list (nat * jsstring))
         (w : jsstring) (j fuel : nat) (pv : option N),
    j + List.length w = n ->
    List.length w <= fuel ->
    forallb p w = true ->
    rep_loop (run icase (Cls p)) n (Some n) k fuel j (MState pv (w ++ s) cs)
    = k (MState (last_of w pv) s cs).
Proof.
  intros icase R p n k s cs.
  induction w as [|x w IH]; intros j fuel pv Hj Hf Hp.
  - cbn in Hj. rewrite Nat.add_0_r in Hj. subst j.
    destruct fuel; cbn [rep_loop below]; rewrite Nat.leb_refl;
      [reflexivity|rewrite Nat.ltb_irrefl; reflexivity].
  - destruct fuel as [|fuel]; [cbn in Hf; lia|].
    cbn in Hj, Hp. apply andb_true_iff in Hp. destruct Hp as [Hx Hp].
    cbn [rep_loop below].
    assert (E1 : (n <=? j) = false) by (apply Nat.leb_gt; lia).
    assert (E2 : (j <? n) = true) by (apply Nat.ltb_lt; lia).
    rewrite E1, E2, or_else_None_r.
    cbn [run rest app]. rewrite Hx. cbn [rest caps].
    assert (E3 : (List.length (w ++ s) <? List.length (x :: w ++ s)) = true)
      by (apply Nat.ltb_lt; cbn; lia).
    rewrite E3. apply IH; [lia|cbn in Hf; lia|exact Hp].
Qed.

End SearchFacts.

(** ** TorrentParser.parseResolution *)

Section Resolution.

Import TorrentParser Patterns.

Local Open Scope nat_scope.

(** The first capture of RESOLUTION holds at least four code units. *)
Lemma resolution_capture_length :
  forall (name : jsstring) (m : rmatch) (g : jsstring),
    exec RESOLUTION name = Some m ->
    group 1 (m_caps m) = Some g ->
    4 <= List.length g.
Proof.
  intros name m g H Hg. unfold exec in H.
  apply search_from_sound in H.
  destruct H as (st & st' & Hc & _ & HM & Hcaps & _ & _).
  cbn in HM.
  destruct HM as (st1 & [-> _] & st2 & (st3 & HX & ->) & [-> _]).
  rewrite Hcaps in Hg. cbn in Hg. injection Hg as <-.
  assert (HX' : Matches true (Seq (times 3 4 digit) (c "p")) st st3)
    by exact HX.
  apply Matches_consumes in HX'. destruct HX' as (w & Hw & Hl).
  rewrite (taken_prefix _ _ _ Hw). exact Hl.
Qed.

(** C4. [parseResolution] returns the empty string or one of 480p, 720p,
    1080p and 1440p.  It never returns "4K", although "4K" is listed in
    [validResolutions]: the pattern RESOLUTION only captures three or four
    digits followed by "p", so a name with the token "4K" and no such token
    gets the empty string. *)
Theorem parseResolution_never_returns_4K :
  forall name : jsstring,
    In (parseResolution name)
       [[]; js "480p"; js "720p"; js "1080p"; js "1440p"]
    /\ parseResolution name <> js "4K"
    /\ parseResolution (js "[Group] Show 4K") = [].
Proof.
  intro name.
  assert (H : parseResolution name = []
              \/ (In (parseResolution name) validResolutions
                  /\ 4 <= List.length (parseResolution name))).
  { unfold parseResolution, group1.
    destruct (exec RESOLUTION name) as [m|] eqn:Em; [|left; reflexivity].
    destruct (group 1 (m_caps m)) as [g|] eqn:Eg; [|left; reflexivity].
    destruct (arr_includes validResolutions g) eqn:Ei; [|left; reflexivity].
    right. split; [|exact (resolution_capture_length _ Em Eg)].
    unfold arr_includes in Ei. apply existsb_exists in Ei.
    destruct Ei as (v & Hin & Hv). apply str_eqb_eq in Hv. subst v.
    exact Hin. }
  split; [|split].
  - destruct H as [->|[Hin Hl]]; [left; reflexivity|].
    cbn in Hin. destruct Hin as [E|[E|[E|[E|[E|[]]]]]];
      rewrite <- E in *; cbn; auto 6.
    cbn in Hl. lia.
  - destruct H as [->|[_ Hl]]; [discriminate|].
    intro E. rewrite E in Hl. cbn in Hl. lia.
  - vm_compute. reflexivity.
Qed.

End Resolution.

(** ** TorrentParser.extractInfoHash *)

Section InfoHash.

Import TorrentParser Patterns FirstHash.
Local Open Scope nat_scope.

(** A quantifier [{n,n}] over a character class, decided: it reads the
    next code units up to the count [n] when they are all in the class, and
    fails otherwise. *)
Lemma rep_exact_decide :
  forall (icase : bool) (R : Type) (p : N -> bool)
         (mr : mstate -> (mstate -> option R) -> option R),
    (forall st k, mr st k = run icase (Cls p) st k) ->
    forall (n : nat) (k : mstate -> option R) (cs : list (nat * jsstring))
           (s : jsstring) (j fuel : nat) (pv : option N),
      j <= n ->
      List.length s <= fuel ->
      rep_loop mr n (Some n) k fuel j (MState pv s cs)
      = if (List.length (firstn (n - j) s) =? n - j)
           && forallb p (firstn (n - j) s)
        then k (MState (last_of (firstn (n - j) s) pv) (skipn (n - j) s) cs)
        else None.
Proof.
  intros icase R p mr Hmr n k cs.
  induction s as [|x s IH]; intros j fuel pv Hj Hf.
  - destruct (Nat.eq_dec j n) as [->|Hne].
    + rewrite Nat.sub_diag. cbn [firstn List.length forallb skipn last_of].
      destruct fuel; cbn [rep_loop below]; rewrite Nat.leb_refl;
        [reflexivity|rewrite Nat.ltb_irrefl; reflexivity].
    + assert (E1 : (n <=? j) = false) by (apply Nat.leb_gt; lia).
      assert (E2 : (0 =? n - j) = false) by (apply Nat.eqb_neq; lia).
      rewrite firstn_nil. cbn [List.length]. rewrite E2. cbn [andb].
      destruct fuel; cbn [rep_loop below]; rewrite E1; [reflexivity|].
      rewrite Hmr. destruct (j <? n); reflexivity.
  - destruct fuel as [|fuel]; [cbn in Hf; lia|].
    destruct (Nat.eq_dec j n) as [->|Hne].
    + rewrite Nat.sub_diag. cbn [firstn List.length forallb skipn last_of].
      cbn [rep_loop below]. rewrite Nat.leb_refl, Nat.ltb_irrefl.
      reflexivity.
    + assert (E1 : (n <=? j) = false) by (apply Nat.leb_gt; lia).
      assert (E2 : (j <? n) = true) by (apply Nat.ltb_lt; lia).
      assert (E3 : (List.length s <? List.length (x :: s)) = true)
        by (apply Nat.ltb_lt; cbn; lia).
      cbn [rep_loop below]. rewrite E1, E2, or_else_None_r, Hmr.
      cbn [run rest caps].
      replace (n - j) with (S (n - S j)) by lia.
      cbn [firstn forallb skipn last_of].
      change (List.length (x :: firstn (n - S j) s))
        with (S (List.length (firstn (n - S j) s))).
      change (S (List.length (firstn (n - S j) s)) =? S (n - S j))
        with (List.length (firstn (n - S j) s) =? n - S j).
      destruct (p x) eqn:Ex.
      * rewrite E3. rewrite IH by (cbn in Hf; lia). reflexivity.
      * rewrite andb_false_r. reflexivity.
Qed.

(** A literal text under the [i] flag: it reads the next code units when
    they are the text up to letter case. *)
Lemma run_lit_icase :
  forall (R : Type) (w : jsstring) (s : jsstring) (pv : option N)
         (cs : list (nat * jsstring)) (k : mstate -> option R),
    w <> [] ->
    run true (lit w) (MState pv s cs) k
    = if str_eqb (map canon (firstn (List.length w) s)) (map canon w)
      then k (MState (last_of (firstn (List.length w) s) pv)
                     (skipn (List.length w) s) cs)
      else None.
Proof.
  intros R w. induction w as [|c w IH]; intros s pv cs k Hw;
    [contradiction|].
  destruct w as [|c' w].
  - cbn [lit run rest caps List.length].
    destruct s as [|x s]; [reflexivity|].
    cbn [firstn map str_eqb skipn last_of]. unfold chr_eqb.
    rewrite (N.eqb_sym (canon c) (canon x)), andb_true_r. reflexivity.
  - change (lit (c :: c' :: w)) with (Seq (Chr c) (lit (c' :: w))).
    cbn [run rest caps].
    destruct s as [|x s]; [reflexivity|].
    change (List.length (c :: c' :: w)) with (S (List.length (c' :: w))).
    cbn [firstn map str_eqb skipn last_of]. unfold chr_eqb.
    rewrite (N.eqb_sym (canon c) (canon x)).
    destruct (canon x =? canon c)%N; [|reflexivity].
    rewrite IH by discriminate. reflexivity.
Qed.

(** The pattern INFO_HASH at one position: it matches exactly where
    [hash_here] finds a hash, and captures that hash. *)
Lemma match_at_info_hash :
  forall (i : nat) (pv : option N) (s : jsstring),
    match hash_here s with
    | Some h =>
        exists m, match_at INFO_HASH i (MState pv s []) = Some m
                  /\ group 1 (m_caps m) = Some h
    | None => match_at INFO_HASH i (MState pv s []) = None
    end.
Proof.
  intros i pv s. unfold hash_here, is_btih, match_at.
  cbn [p_icase p_body INFO_HASH].
  change (run true (Seq (lit (js "btih:"))
                        (Grp 1 (times 40 40 (Cls is_hex))))
              (MState pv s [])
              (fun st' => Some (RMatch i (taken (MState pv s []) st')
                                       (caps st') st')))
    with (run true (lit (js "btih:")) (MState pv s [])
              (fun st1 =>
                 rep_loop (run true (Cls is_hex)) 40 (Some 40)
                   (fun st2 =>
                      Some (RMatch i
                              (taken (MState pv s [])
                                     (set_cap 1 (taken st1 st2) st2))
                              (caps (set_cap 1 (taken st1 st2) st2))
                              (set_cap 1 (taken st1 st2) st2)))
                   (List.length (rest st1)) 0 st1)).
  rewrite run_lit_icase by discriminate.
  change (List.length (js "btih:")) with 5.
  destruct (str_eqb (map canon (firstn 5 s)) (map canon (js "btih:")));
    [|reflexivity].
  cbn [andb rest].
  rewrite (@rep_exact_decide true rmatch is_hex (run true (Cls is_hex))
             (fun _ _ => eq_refl) 40 _ [] (skipn 5 s) 0
             (List.length (skipn 5 s)) _ (Nat.le_0_l 40) (Nat.le_refl _)).
  rewrite Nat.sub_0_r.
  destruct ((List.length (firstn 40 (skipn 5 s)) =? 40)
            && forallb is_hex (firstn 40 (skipn 5 s))) eqn:E; [|reflexivity].
  eexists. split; [reflexivity|].
  cbn [m_caps caps set_cap group Nat.eqb]. f_equal.
  unfold taken. cbn [rest].
  apply andb_true_iff in E. destruct E as [E _]. apply Nat.eqb_eq in E.
  set (t := skipn 5 s) in *.
  rewrite length_skipn. rewrite length_firstn in E.
  f_equal. lia.
Qed.

(** The search for INFO_HASH finds the first hash. *)
Lemma search_info_hash :
  forall (s : jsstring) (i : nat) (pv : option N),
    match first_hash s with
    | Some h =>
        exists m, search_from INFO_HASH i pv s = Some m
                  /\ group 1 (m_caps m) = Some h
    | None => search_from INFO_HASH i pv s = None
    end.
Proof.
  induction s as [|x s IH]; intros i pv.
  - pose proof (match_at_info_hash i pv []) as H.
    cbn [first_hash search_from]. rewrite or_else_None_r.
    destruct (hash_here []); exact H.
  - pose proof (match_at_info_hash i pv (x :: s)) as H.
    cbn [first_hash search_from].
    destruct (hash_here (x :: s)) as [h|].
    + destruct H as (m & Hm & Hg). exists m. rewrite Hm. split;
        [reflexivity|exact Hg].
    + rewrite H. cbn [or_else]. apply IH.
Qed.

Lemma hash_here_sound :
  forall (s h : jsstring),
    hash_here s = Some h -> List.length h = 40 /\ forallb is_hex h = true.
Proof.
  intros s h H. unfold hash_here in H.
  destruct (is_btih (firstn 5 s)
            && (List.length (firstn 40 (skipn 5 s)) =? 40)
            && forallb is_hex (firstn 40 (skipn 5 s))) eqn:E; [|discriminate].
  injection H as <-.
  apply andb_true_iff in E. destruct E as [E Hh].
  apply andb_true_iff in E. destruct E as [_ Hl].
  apply Nat.eqb_eq in Hl. split; assumption.
Qed.

Lemma first_hash_sound :
  forall (s h : jsstring),
    first_hash s = Some h -> List.length h = 40 /\ forallb is_hex h = true.
Proof.
  induction s as [|x s IH]; intros h H; cbn [first_hash] in H.
  - destruct (hash_here []) as [h'|] eqn:E; [|discriminate].
    injection H as <-. exact (hash_here_sound _ E).
  - destruct (hash_here (x :: s)) as [h'|] eqn:E.
    + injection H as <-. exact (hash_here_sound _ E).
    + apply IH. exact H.
Qed.

(** What [isValidInfoHash] accepts is 40 hexadecimal digits. *)
Lemma isValidInfoHash_sound :
  forall hash : jsstring,
    isValidInfoHash hash = true ->
    List.length hash = 40 /\ forallb is_hex hash = true.
Proof.
  intros hash H. unfold isValidInfoHash, test in H.
  destruct (exec INFO_HASH_ONLY hash) as [m|] eqn:E; [|discriminate].
  clear H. unfold exec in E. apply search_from_sound in E.
  destruct E as (st & st' & _ & (pre & Hpre & Hpv) & HM & _).
  cbn in HM.
  destruct HM as (st1 & [-> Hbos] & st2 & (n & Hlo & Hhi & Hit) & [-> Heos]).
  rewrite Hbos in Hpv. symmetry in Hpv. apply last_of_None in Hpv. subst pre.
  assert (Hit' : iter n (Matches false (Cls is_hex)) st st2) by exact Hit.
  apply iter_cls in Hit'. destruct Hit' as (w & Hw & Hl & Hp).
  rewrite Heos, app_nil_r in Hw. cbn in Hpre. rewrite Hpre, Hw.
  split; [lia|exact Hp].
Qed.

(** And it accepts every string of 40 hexadecimal digits. *)
Lemma isValidInfoHash_complete :
  forall hash : jsstring,
    List.length hash = 40 -> forallb is_hex hash = true ->
    isValidInfoHash hash = true.
Proof.
  intros h Hl Hh. unfold isValidInfoHash, test, exec.
  assert (E : exists m', match_at INFO_HASH_ONLY 0 (MState None h [])
                         = Some m').
  { unfold match_at. cbn -[rep_loop taken].
    match goal with
    | |- context [rep_loop ?mr 40 (Some 40) ?k ?f 0 ?st] =>
        assert (E : rep_loop mr 40 (Some 40) k f 0 st
                    = k (MState (last_of h None) [] []))
    end.
    { rewrite <- (app_nil_r h) at 2.
      apply (@rep_exact false rmatch is_hex 40).
      - exact Hl.
      - lia.
      - exact Hh. }
    rewrite E. cbn. eexists. reflexivity. }
  destruct E as (m' & E). rewrite (search_from_head _ _ _ _ E).
  reflexivity.
Qed.

(** [extractInfoHash] on a magnet link is the first hash of the link. *)
Lemma extractInfoHash_first_hash :
  forall link : jsstring,
    extractInfoHash link
    = if isValidMagnetLink link
      then match first_hash link with Some h => h | None => [] end
      else [].
Proof.
  intro link. unfold extractInfoHash.
  destruct (isValidMagnetLink link); [|reflexivity]. cbn [negb].
  pose proof (search_info_hash link 0 None) as H. unfold exec.
  destruct (first_hash link) as [h|] eqn:Ef.
  - destruct H as (m & -> & Hg). cbn [group1]. rewrite Hg.
    destruct (first_hash_sound _ Ef) as [Hl Hh].
    rewrite isValidInfoHash_complete, Hl by assumption. reflexivity.
  - rewrite H. reflexivity.
Qed.

Lemma is_btih_length :
  forall tag : jsstring, is_btih tag = true -> List.length tag = 5.
Proof.
  intros tag H. unfold is_btih in H. apply str_eqb_eq in H.
  apply (f_equal (@List.length N)) in H. rewrite length_map in H. exact H.
Qed.

Lemma hash_here_at_tag :
  forall tag h more : jsstring,
    is_btih tag = true -> List.length h = 40 -> forallb is_hex h = true ->
    hash_here (tag ++ h ++ more) = Some h.
Proof.
  intros tag h more Ht Hl Hh. unfold hash_here.
  pose proof (is_btih_length _ Ht) as Htl.
  assert (E1 : firstn 5 (tag ++ h ++ more) = tag).
  { rewrite firstn_app, Htl, Nat.sub_diag, firstn_O, app_nil_r.
    apply firstn_all2. lia. }
  assert (E2 : firstn 40 (skipn 5 (tag ++ h ++ more)) = h).
  { rewrite skipn_app, Htl, Nat.sub_diag, skipn_O.
    rewrite skipn_all2 by lia. cbn [app].
    rewrite firstn_app, Hl, Nat.sub_diag, firstn_O, app_nil_r.
    apply firstn_all2. lia. }
  rewrite E1, E2, Ht, Hl, Hh. reflexivity.
Qed.

Lemma first_hash_skip :
  forall pre s : jsstring,
    (forall i, i < List.length pre -> hash_here (skipn i (pre ++ s)) = None) ->
    first_hash (pre ++ s) = first_hash s.
Proof.
  induction pre as [|x pre IH]; intros s H; [reflexivity|].
  assert (H0 : hash_here (x :: pre ++ s) = None)
    by (apply (H 0); cbn; lia).
  cbn [app first_hash]. rewrite H0.
  apply IH. intros i Hi. apply (H (S i)). cbn. lia.
Qed.

(** The link of the specification, with its hash in upper case: the hash
    comes back in upper case, not lower-cased. *)
Lemma extractInfoHash_keeps_case :
  extractInfoHash
    (js "magnet:?xt=urn:btih:0123456789ABCDEF0123456789ABCDEF01234567&dn=x")
  = js "0123456789ABCDEF0123456789ABCDEF01234567"
  /\ extractInfoHash
       (js "magnet:?xt=urn:btih:0123456789ABCDEF0123456789ABCDEF01234567&dn=x")
     <> js "0123456789abcdef0123456789abcdef01234567".
Proof. vm_compute. split; [reflexivity|discriminate]. Qed.

(** C2 (amended). On a magnet link (prefix [magnet:?], more than 20 code
    units) [extractInfoHash] returns the 40 hexadecimal digits that follow
    the first [btih:], in any letter case, that 40 hexadecimal digits
    follow, as they are written in the link, in their own case; it returns
    the empty string when the link has no such place.  So on a magnet link
    that reads [pre], [btih:], 40 hexadecimal digits [h] and [more], where
    no earlier position of the link starts such an occurrence, the result
    is [h].  On every input that is not a magnet link (no prefix
    [magnet:?], or at most 20 code units) it returns the empty string, as
    on "not a magnet".  Whatever the input, the result is the empty string
    or 40 hexadecimal digits. *)
Theorem extractInfoHash_returns_hash_as_written :
  (forall link : jsstring,
     extractInfoHash link
     = if isValidMagnetLink link
       then match first_hash link with Some h => h | None => [] end
       else [])
  /\ (forall pre tag h more : jsstring,
        isValidMagnetLink (pre ++ tag ++ h ++ more) = true ->
        is_btih tag = true ->
        List.length h = 40 ->
        forallb is_hex h = true ->
        (forall i, i < List.length pre ->
           hash_here (skipn i (pre ++ tag ++ h ++ more)) = None) ->
        extractInfoHash (pre ++ tag ++ h ++ more) = h)
  /\ (forall link : jsstring,
        isValidMagnetLink link = false -> extractInfoHash link = [])
  /\ extractInfoHash (js "not a magnet") = []
  /\ (forall link : jsstring,
        extractInfoHash link = []
        \/ (List.length (extractInfoHash link) = 40
            /\ forallb is_hex (extractInfoHash link) = true)).
Proof.
  split; [exact extractInfoHash_first_hash|].
  split; [|split; [|split]].
  - intros pre tag h more Hv Ht Hl Hh Hfirst.
    rewrite extractInfoHash_first_hash, Hv.
    rewrite first_hash_skip by exact Hfirst.
    assert (E : first_hash (tag ++ h ++ more) = Some h).
    { destruct tag as [|x tag]; [discriminate Ht|].
      cbn [app first_hash].
      change (x :: tag ++ h ++ more) with ((x :: tag) ++ h ++ more).
      rewrite hash_here_at_tag by assumption. reflexivity. }
    rewrite E. reflexivity.
  - intros link Hv. rewrite extractInfoHash_first_hash, Hv. reflexivity.
  - reflexivity.
  - intro link. rewrite extractInfoHash_first_hash.
    destruct (isValidMagnetLink link); [|left; reflexivity].
    destruct (first_hash link) as [h|] eqn:E; [|left; reflexivity].
    right. exact (first_hash_sound _ E).
Qed.

(** The theorem at a link whose name parameter holds the letter b, with
    the tag in upper case: the 40 digits after the tag come back as they
    are written. *)
Lemma extractInfoHash_returns_hash_as_written_witness :
  isValidMagnetLink
    (js "magnet:?dn=Bleach&xt=urn:" ++ js "BTIH:"
        ++ js "0123456789ABCDEF0123456789abcdef01234567" ++ js "&tr=x") = true
  /\ is_btih (js "BTIH:") = true
  /\ extractInfoHash
       (js "magnet:?dn=Bleach&xt=urn:" ++ js "BTIH:"
           ++ js "0123456789ABCDEF0123456789abcdef01234567" ++ js "&tr=x")
     = js "0123456789ABCDEF0123456789abcdef01234567".
Proof.
  split; [reflexivity|]. split; [reflexivity|].
  refine (proj1 (proj2 extractInfoHash_returns_hash_as_written)
            (js "magnet:?dn=Bleach&xt=urn:") (js "BTIH:")
            (js "0123456789ABCDEF0123456789abcdef01234567") (js "&tr=x")
            _ _ _ _ _); try reflexivity.
  intros i Hi.
  assert (Hall : forallb
            (fun i => match hash_here
                              (skipn i
                                 (js "magnet:?dn=Bleach&xt=urn:" ++ js "BTIH:"
                                    ++ js "0123456789ABCDEF0123456789abcdef01234567"
                                    ++ js "&tr=x")) with
                      | Some _ => false
                      | None => true
                      end)
            (seq 0 (List.length (js "magnet:?dn=Bleach&xt=urn:"))) = true)
    by (vm_compute; reflexivity).
  rewrite forallb_forall in Hall.
  specialize (Hall i). rewrite in_seq in Hall.
  destruct (hash_here _); [|reflexivity].
  discriminate Hall. split; [apply Nat.le_0_l|exact Hi].
Defined.

End InfoHash.

(** ** Replacement, read directly *)

Section ReplaceFacts.

Import NormalForm.

Local Open Scope nat_scope.

Lemma search_from_None :
  forall (p : pattern) (s : jsstring) (i : nat) (pv : option N),
    search_from p i pv s = None ->
    match_at p i (MState pv s []) = None
    /\ match s with
       | c :: s' => search_from p (S i) (Some c) s' = None
       | [] => True
       end.
Proof.
  intros p s i pv H. destruct s as [|c s]; cbn [search_from] in H.
  - rewrite or_else_None_r in H. split; [exact H|exact I].
  - destruct (match_at p i (MState pv (c :: s) [])); [discriminate H|].
    split; [reflexivity|exact H].
Qed.

(** Where the pattern matches nowhere, the scan copies its input. *)
Lemma scan_no_match :
  forall (p : pattern) (on_match : rmatch -> jsstring)
         (s : jsstring) (fuel i : nat) (pv : option N),
    search_from p i pv s = None ->
    List.length s <= fuel ->
    scan p on_match (fun c => [c]) fuel i pv s = s.
Proof.
  intros p on_match. induction s as [|c s IH]; intros fuel i pv H Hf.
  - destruct fuel; cbn; [reflexivity|].
    apply search_from_None in H. destruct H as [-> _]. reflexivity.
  - destruct fuel as [|fuel]; [cbn in Hf; lia|].
    apply search_from_None in H. destruct H as [Hm Hs].
    cbn [scan]. rewrite Hm. cbn [app]. f_equal.
    apply IH; [exact Hs|cbn in Hf; lia].
Qed.

Lemma replace_no_match :
  forall (p : pattern) (tpl : list tpl_item) (s : jsstring),
    exec p s = None -> replace p tpl s = s.
Proof.
  intros p tpl s H. unfold replace.
  destruct (p_global p).
  - apply scan_no_match; [exact H|lia].
  - rewrite H. reflexivity.
Qed.

(** The replacement of one code unit. *)
Lemma scan_key :
  forall (c : N) (to : jsstring) (s : jsstring) (fuel i : nat)
         (pv : option N),
    List.length s <= fuel ->
    scan (Pattern false true (Chr c)) (expand [TLit to]) (fun x => [x])
         fuel i pv s
    = subst_char c to s.
Proof.
  intros c to. induction s as [|x s IH]; intros fuel i pv Hf.
  - destruct fuel; reflexivity.
  - destruct fuel as [|fuel]; [cbn in Hf; lia|].
    cbn [scan match_at run p_icase p_body rest caps chr_eqb].
    unfold subst_char. cbn [flat_map]. fold (subst_char c to s).
    rewrite (N.eqb_sym x c).
    destruct (c =? x)%N.
    + cbn [m_end rest prev m_text].
      assert (E : (List.length s <? List.length (x :: s)) = true)
        by (apply Nat.ltb_lt; cbn; lia).
      rewrite E. cbn [expand flat_map]. rewrite app_nil_r.
      f_equal. apply IH. cbn in Hf. lia.
    + cbn [app]. f_equal. apply IH. cbn in Hf. lia.
Qed.

Lemma replace_key :
  forall (c : N) (to s : jsstring),
    replace (StringNormalizer.key_pattern [c]) [TLit to] s = subst_char c to s.
Proof.
  intros c to s. unfold replace, StringNormalizer.key_pattern.
  cbn [p_global lit]. apply scan_key. lia.
Qed.

Lemma drop_space_length :
  forall s : jsstring, List.length (drop_space s) <= List.length s.
Proof.
  induction s as [|x s IH]; cbn; [lia|].
  destruct (is_space x); cbn; lia.
Qed.

(** The greedy run of white space: the quantifier reads all of it. *)
Lemma rep_space_greedy :
  forall (R : Type) (mr : mstate -> (mstate -> option R) -> option R)
         (f : mstate -> R) (cs : list (nat * jsstring)),
    (forall st k, mr st k = run false (Cls is_space) st k) ->
    forall (s : jsstring) (fuel n : nat) (pv : option N),
      List.length s <= fuel ->
      1 <= n \/ head_space s = true ->
      exists pv',
        rep_loop mr 1 None (fun st => Some (f st)) fuel n (MState pv s cs)
        = Some (f (MState pv' (drop_space s) cs)).
Proof.
  intros R mr f cs Hmr. induction s as [|x s IH]; intros fuel n pv Hf Hn.
  - destruct Hn as [Hn|Hn]; [|discriminate Hn].
    assert (E : (1 <=? n) = true) by (apply Nat.leb_le; exact Hn).
    exists pv. destruct fuel; cbn [rep_loop below]; rewrite ?Hmr, E;
      reflexivity.
  - destruct fuel as [|fuel]; [cbn in Hf; lia|].
    cbn [rep_loop below drop_space]. rewrite Hmr. cbn [run rest caps].
    destruct (is_space x) eqn:Ex.
    + assert (E : (List.length s <? List.length (x :: s)) = true)
        by (apply Nat.ltb_lt; cbn; lia).
      rewrite E.
      destruct (IH fuel (S n) (Some x)) as (pv' & ->);
        [cbn in Hf; lia|left; lia|].
      exists pv'. reflexivity.
    + destruct Hn as [Hn|Hn]; [|cbn in Hn; congruence].
      assert (E : (1 <=? n) = true) by (apply Nat.leb_le; exact Hn).
      exists pv. cbn [or_else]. rewrite E. reflexivity.
Qed.

Lemma squeeze_true_drop :
  forall s : jsstring, squeeze true s = squeeze false (drop_space s).
Proof.
  induction s as [|x s IH]; cbn; [reflexivity|].
  destruct (is_space x) eqn:Ex; [exact IH|].
  cbn. rewrite Ex. reflexivity.
Qed.

(** What the pattern [/\s+/] matches at a position. *)
Lemma match_at_ws :
  forall (i : nat) (pv : option N) (s : jsstring),
    exists pv',
      match_at PerformanceCache.WS_RUN i (MState pv s [])
      = if head_space s
        then Some (RMatch i (taken (MState pv s [])
                                   (MState pv' (drop_space s) []))
                          [] (MState pv' (drop_space s) []))
        else None.
Proof.
  intros i pv s. unfold match_at.
  change (run (p_icase PerformanceCache.WS_RUN)
              (p_body PerformanceCache.WS_RUN) (MState pv s []))
    with (fun k : mstate -> option rmatch =>
            rep_loop (run false (Cls is_space)) 1 None k
                     (List.length s) 0 (MState pv s [])).
  cbv beta.
  destruct (head_space s) eqn:Eh.
  - destruct (@rep_space_greedy rmatch (run false (Cls is_space))
                (fun st' => RMatch i (taken (MState pv s []) st')
                                   (caps st') st')
                [] (fun _ _ => eq_refl) s (List.length s) 0 pv)
      as (pv' & E); [lia|right; exact Eh|].
    exists pv'. exact E.
  - exists pv. destruct s as [|x s]; [reflexivity|].
    cbn in Eh. cbn [List.length rep_loop below run rest].
    rewrite Eh. reflexivity.
Qed.

(** [s.replace(/\s+/g, ' ')] squeezes every run of white space into one
    space. *)
Lemma scan_ws :
  forall (fuel : nat) (s : jsstring) (i : nat) (pv : option N),
    List.length s <= fuel ->
    scan PerformanceCache.WS_RUN (expand [TLit (js " ")]) (fun x => [x])
         fuel i pv s
    = squeeze false s.
Proof.
  induction fuel as [|fuel IH]; intros s i pv Hf.
  - destruct s; [reflexivity|cbn in Hf; lia].
  - destruct s as [|x s].
    + reflexivity.
    + cbn [scan squeeze].
      destruct (match_at_ws i pv (x :: s)) as (pv' & ->).
      cbn [head_space drop_space].
      destruct (is_space x) eqn:Ex.
      * cbn [m_end rest prev m_text].
        assert (El : (List.length (drop_space s) <? List.length (x :: s))
                     = true).
        { apply Nat.ltb_lt. pose proof (drop_space_length s). cbn. lia. }
        rewrite El. cbn [expand flat_map js app].
        change (N_of_ascii " ") with 32%N. cbn [app]. f_equal.
        rewrite IH.
        -- symmetry. apply squeeze_true_drop.
        -- pose proof (drop_space_length s). cbn in Hf. lia.
      * cbn [app]. f_equal. apply IH. cbn in Hf. lia.
Qed.

Lemma replace_ws :
  forall s : jsstring,
    replace StringNormalizer.WS_RUN [TLit (js " ")] s = squeeze false s.
Proof.
  intro s. unfold replace, StringNormalizer.WS_RUN.
  cbn [p_global PerformanceCache.WS_RUN]. apply scan_ws. lia.
Qed.

End ReplaceFacts.

(** ** What a replacement is made of *)

Section ReplaceContents.

Import NormalForm.

Local Open Scope nat_scope.

Variable q : N -> bool.

Lemma forallb_firstn :
  forall (n : nat) (s : jsstring),
    forallb q s = true -> forallb q (firstn n s) = true.
Proof.
  induction n as [|n IH]; intros [|x s] H; cbn in *; try reflexivity.
  apply andb_true_iff in H. destruct H as [-> H]. cbn. apply IH. exact H.
Qed.

Lemma forallb_rev :
  forall s : jsstring, forallb q s = true -> forallb q (rev s) = true.
Proof.
  induction s as [|x s IH]; cbn; intro H; [reflexivity|].
  apply andb_true_iff in H. destruct H as [Hx H].
  rewrite forallb_app, IH by exact H. cbn. rewrite Hx. reflexivity.
Qed.

Lemma forallb_flat_map :
  forall (f : N -> jsstring) (s : jsstring),
    (forall x, forallb q (f x) = true) ->
    forallb q (flat_map f s) = true.
Proof.
  intros f s H. induction s as [|x s IH]; cbn; [reflexivity|].
  rewrite forallb_app, H, IH. reflexivity.
Qed.

(** A match takes its captures from the text in front of it. *)
Lemma Matches_ok :
  forall (icase : bool) (r : regex) (st st' : mstate),
    Matches icase r st st' -> state_ok q st -> state_ok q st'.
Proof.
  intro icase.
  induction r as [c|p| |r1 IH1 r2 IH2|r1 IH1 r2 IH2|lo hi r1 IH1|g r1 IH1| | |];
    intros st st' H [Hr Hc]; cbn in H.
  - destruct H as (x & E & _ & ->). cbn in *. rewrite E in Hr. cbn in Hr.
    apply andb_true_iff in Hr. split; [apply Hr|exact Hc].
  - destruct H as (x & E & _ & ->). cbn in *. rewrite E in Hr. cbn in Hr.
    apply andb_true_iff in Hr. split; [apply Hr|exact Hc].
  - subst st'. split; assumption.
  - destruct H as (st1 & H1 & H2).
    apply (IH2 st1); [exact H2|]. apply (IH1 st); [exact H1|].
    split; assumption.
  - destruct H as [H|H]; [apply (IH1 st)|apply (IH2 st)];
      try exact H; split; assumption.
  - destruct H as (n & _ & _ & Hit).
    assert (Hst : state_ok q st) by (split; assumption).
    clear Hr Hc. revert st Hit Hst.
    induction n as [|n IHn]; intros st Hit Hst; cbn in Hit.
    + subst st'. exact Hst.
    + destruct Hit as (st1 & H1 & Hit).
      apply (IHn st1); [exact Hit|]. apply (IH1 st); assumption.
  - destruct H as (st1 & H1 & ->).
    destruct (IH1 st st1 H1 (conj Hr Hc)) as [Hr1 Hc1].
    split; [exact Hr1|]. cbn. constructor; [|exact Hc1].
    cbn. unfold taken. apply forallb_firstn. exact Hr.
  - destruct H as [-> _]. split; assumption.
  - destruct H as [-> _]. split; assumption.
  - destruct H as [-> _]. split; assumption.
Qed.

Lemma match_at_ok :
  forall (p : pattern) (i : nat) (pv : option N) (s : jsstring) (m : rmatch),
    match_at p i (MState pv s []) = Some m ->
    forallb q s = true ->
    state_ok q (m_end m) /\ caps_ok q (m_caps m).
Proof.
  intros p i pv s m H Hs. unfold match_at in H.
  apply run_sound in H. destruct H as (st' & HM & H). injection H as <-.
  cbn [m_end m_caps].
  assert (Hok : state_ok q st').
  { eapply Matches_ok; [exact HM|]. split; [exact Hs|constructor]. }
  split; [exact Hok|apply Hok].
Qed.

Lemma group_ok :
  forall (k : nat) (cs : list (nat * jsstring)) (v : jsstring),
    caps_ok q cs -> group k cs = Some v -> forallb q v = true.
Proof.
  intros k cs v H. induction H as [|[g w] cs Hw Hcs IH]; cbn; intro E.
  - discriminate.
  - destruct (g =? k); [injection E as <-; exact Hw|apply IH; exact E].
Qed.

Lemma expand_ok :
  forall (tpl : list tpl_item) (m : rmatch),
    tpl_ok q tpl -> caps_ok q (m_caps m) -> forallb q (expand tpl m) = true.
Proof.
  intros tpl m Ht Hc. unfold expand.
  induction Ht as [|it tpl Hit Ht IH]; cbn; [reflexivity|].
  rewrite forallb_app, IH, andb_true_r.
  destruct it as [l|k]; [exact Hit|].
  destruct (group k (m_caps m)) as [v|] eqn:E; [|reflexivity].
  eapply group_ok; [exact Hc|exact E].
Qed.

(** A replacement is made of code units of its input and of its
    replacement string. *)
Lemma scan_ok :
  forall (p : pattern) (tpl : list tpl_item),
    tpl_ok q tpl ->
    forall (fuel i : nat) (pv : option N) (s : jsstring),
      forallb q s = true ->
      forallb q (scan p (expand tpl) (fun c => [c]) fuel i pv s) = true.
Proof.
  intros p tpl Ht. induction fuel as [|fuel IH]; intros i pv s Hs;
    cbn [scan]; [reflexivity|].
  assert (Hrest : forallb q match s with
                            | c :: s' => [c] ++ scan p (expand tpl)
                                           (fun c => [c]) fuel (S i) (Some c) s'
                            | [] => []
                            end = true).
  { destruct s as [|c s']; [reflexivity|]. cbn in Hs |- *.
    apply andb_true_iff in Hs. destruct Hs as [-> Hs]. cbn.
    apply IH. exact Hs. }
  destruct (match_at p i (MState pv s [])) as [m|] eqn:Em; [|exact Hrest].
  destruct (@match_at_ok p i pv s m Em Hs) as [[Hr _] Hc].
  assert (He : forallb q (expand tpl m) = true)
    by (apply expand_ok; assumption).
  destruct (List.length (rest (m_end m)) <? List.length s);
    rewrite forallb_app, He; cbn [andb];
    [apply IH; exact Hr|exact Hrest].
Qed.

Lemma replace_ok :
  forall (p : pattern) (tpl : list tpl_item) (s : jsstring),
    p_global p = true ->
    tpl_ok q tpl ->
    forallb q s = true ->
    forallb q (replace p tpl s) = true.
Proof.
  intros p tpl s Hg Ht Hs. unfold replace. rewrite Hg.
  apply scan_ok; assumption.
Qed.

Lemma squeeze_ok :
  forall (b : bool) (s : jsstring),
    q 32%N = true -> forallb q s = true -> forallb q (squeeze b s) = true.
Proof.
  intros b s H32. revert b. induction s as [|x s IH]; intros b H; cbn in *;
    [reflexivity|].
  apply andb_true_iff in H. destruct H as [Hx H].
  destruct (is_space x), b; cbn; rewrite ?Hx, ?H32; cbn; apply IH; exact H.
Qed.

Lemma drop_space_ok :
  forall s : jsstring, forallb q s = true -> forallb q (drop_space s) = true.
Proof.
  induction s as [|x s IH]; cbn; intro H; [reflexivity|].
  destruct (is_space x); [|exact H].
  apply andb_true_iff in H. apply IH, H.
Qed.

Lemma trim_ok :
  forall s : jsstring, forallb q s = true -> forallb q (trim s) = true.
Proof.
  intros s H. unfold trim.
  apply forallb_rev, drop_space_ok, forallb_rev, drop_space_ok. exact H.
Qed.

End ReplaceContents.

(** ** StringNormalizer.normalize *)

Section NormalizeShape.

Import NormalForm StringNormalizer.

Local Open Scope nat_scope.

(** *** Trimming *)

Lemma drop_space_idem :
  forall s : jsstring, drop_space (drop_space s) = drop_space s.
Proof.
  induction s as [|x s IH]; cbn; [reflexivity|].
  destruct (is_space x) eqn:Ex; [exact IH|]. cbn. rewrite Ex. reflexivity.
Qed.

Lemma head_space_drop :
  forall s : jsstring, head_space (drop_space s) = false.
Proof.
  induction s as [|x s IH]; cbn; [reflexivity|].
  destruct (is_space x) eqn:Ex; [exact IH|]. cbn. exact Ex.
Qed.

Lemma drop_space_fix :
  forall s : jsstring, head_space s = false -> drop_space s = s.
Proof. intros [|x s] H; cbn in *; [reflexivity|rewrite H; reflexivity]. Qed.

Lemma drop_space_suffix :
  forall s : jsstring, exists u, s = u ++ drop_space s.
Proof.
  induction s as [|x s [u IH]]; cbn.
  - exists []. reflexivity.
  - destruct (is_space x).
    + exists (x :: u). cbn. rewrite <- IH. reflexivity.
    + exists []. reflexivity.
Qed.

Lemma head_space_app :
  forall a b : jsstring, a <> [] -> head_space (a ++ b) = head_space a.
Proof. intros [|x a] b H; [contradiction|reflexivity]. Qed.

Lemma trim_trim : forall s : jsstring, trim (trim s) = trim s.
Proof.
  intro s. unfold trim.
  set (z := drop_space s). set (u := drop_space (rev z)).
  assert (Hu : drop_space u = u) by apply drop_space_idem.
  assert (Hh : head_space (rev u) = false).
  { destruct (drop_space_suffix (rev z)) as [w Hw]. fold u in Hw.
    destruct u as [|y u'] eqn:Eu; [reflexivity|].
    assert (Hz : z = rev (y :: u') ++ rev w).
    { rewrite <- rev_app_distr, <- Hw, rev_involutive. reflexivity. }
    assert (Hne : rev (y :: u') <> []).
    { cbn. intro E. apply app_eq_nil in E. destruct E as [_ E]. discriminate. }
    rewrite <- (head_space_app (rev w) Hne), <- Hz.
    apply head_space_drop. }
  rewrite (drop_space_fix _ Hh), rev_involutive, Hu. reflexivity.
Qed.

(** *** Single spaces *)

Lemma single_spaced_squeeze :
  forall (s : jsstring) (b : bool),
    single_spaced (squeeze b s) = true
    /\ (b = true -> head_space (squeeze b s) = false).
Proof.
  induction s as [|x s IH]; intro b; cbn; [split; reflexivity|].
  destruct (is_space x) eqn:Ex.
  - destruct b.
    + apply IH.
    + destruct (IH true) as [H1 H2]. cbn.
      rewrite H1, H2 by reflexivity. split; [reflexivity|discriminate].
  - destruct (IH false) as [H1 _]. cbn. rewrite Ex, H1.
    split; reflexivity.
Qed.

Lemma single_spaced_tail :
  forall (x : N) (s : jsstring),
    single_spaced (x :: s) = true -> single_spaced s = true.
Proof. intros x s H. cbn in H. apply andb_true_iff in H. apply H. Qed.

Lemma single_spaced_drop_space :
  forall s : jsstring,
    single_spaced s = true -> single_spaced (drop_space s) = true.
Proof.
  induction s as [|x s IH]; intro H; [reflexivity|].
  cbn [drop_space]. destruct (is_space x); [|exact H].
  apply IH. exact (single_spaced_tail _ _ H).
Qed.

Lemma single_spaced_prefix :
  forall a b : jsstring,
    single_spaced (a ++ b) = true -> single_spaced a = true.
Proof.
  induction a as [|x a IH]; intros b H; [reflexivity|].
  cbn in H |- *. apply andb_true_iff in H. destruct H as [Hx H].
  rewrite (IH b H), andb_true_r.
  destruct (is_space x); [|reflexivity].
  apply andb_true_iff in Hx. destruct Hx as [-> Hx]. cbn.
  destruct a as [|y a]; [reflexivity|exact Hx].
Qed.

Lemma single_spaced_trim :
  forall s : jsstring, single_spaced s = true -> single_spaced (trim s) = true.
Proof.
  intros s H. unfold trim.
  apply single_spaced_drop_space in H.
  destruct (drop_space_suffix (rev (drop_space s))) as [u Hu].
  apply (single_spaced_prefix _ (rev u)).
  rewrite <- rev_app_distr, <- Hu, rev_involutive. exact H.
Qed.

Lemma squeeze_fix :
  forall s : jsstring,
    single_spaced s = true ->
    squeeze false s = s /\ (head_space s = false -> squeeze true s = s).
Proof.
  induction s as [|x s IH]; intro H; [split; reflexivity|].
  cbn in H. apply andb_true_iff in H. destruct H as [Hx H].
  destruct (IH H) as [IH1 IH2]. cbn.
  destruct (is_space x) eqn:Ex.
  - apply andb_true_iff in Hx. destruct Hx as [Hx Hh].
    apply N.eqb_eq in Hx. subst x. apply negb_true_iff in Hh.
    split; [rewrite (IH2 Hh); reflexivity|discriminate].
  - rewrite IH1. split; reflexivity.
Qed.

(** *** The character table *)

Lemma flat_map_units :
  forall s : jsstring, flat_map (fun x => [x]) s = s.
Proof. induction s as [|x s IH]; cbn; [reflexivity|rewrite IH; reflexivity]. Qed.

Lemma flat_map_flat_map :
  forall (f g : N -> jsstring) (s : jsstring),
    flat_map f (flat_map g s) = flat_map (fun x => flat_map f (g x)) s.
Proof.
  intros f g. induction s as [|x s IH]; cbn; [reflexivity|].
  rewrite flat_map_app, IH. reflexivity.
Qed.

Lemma fold_table_units :
  forall (tbl : list (N * jsstring)) (s : jsstring),
    fold_table tbl s = flat_map (fun x => fold_table tbl [x]) s.
Proof.
  induction tbl as [|[c to] tbl IH]; intro s.
  - cbn. symmetry. apply flat_map_units.
  - change (fold_table ((c, to) :: tbl) s)
      with (fold_table tbl (subst_char c to s)).
    rewrite IH.
    change (subst_char c to s)
      with (flat_map (fun x => if (x =? c)%N then to else [x]) s).
    rewrite flat_map_flat_map. apply flat_map_ext. intro x.
    change (fold_table ((c, to) :: tbl) [x])
      with (fold_table tbl (subst_char c to [x])).
    rewrite (IH (subst_char c to [x])).
    unfold subst_char. cbn [flat_map]. rewrite app_nil_r. reflexivity.
Qed.

Lemma fold_characters_table :
  forall s : jsstring, fold_characters s = fold_table CHAR_TABLE s.
Proof.
  intro s. unfold fold_characters, fold_table, CHAR_TABLE.
  assert (H : Forall (fun ft => exists c, fst ft = [c])
                     CHARACTER_NORMALIZATIONS)
    by (repeat constructor; eexists; reflexivity).
  revert s. induction H as [|[k to] tbl [c Hk] _ IH]; intro s;
    cbn [fold_left map fst snd].
  - reflexivity.
  - cbn in Hk. subst k. cbn [hd]. rewrite replace_key. apply IH.
Qed.

Lemma fold_table_unit_fix :
  forall (tbl : list (N * jsstring)) (x : N),
    existsb (N.eqb x) (map fst tbl) = false -> fold_table tbl [x] = [x].
Proof.
  induction tbl as [|[c to] tbl IH]; intros x H; [reflexivity|].
  cbn in H. apply orb_false_iff in H. destruct H as [Hc H].
  change (fold_table ((c, to) :: tbl) [x])
    with (fold_table tbl (subst_char c to [x])).
  unfold subst_char. cbn [flat_map]. rewrite Hc. cbn [app].
  apply IH. exact H.
Qed.

Lemma image_fix :
  forall x : N, no_key x = true -> fold_table CHAR_TABLE [x] = [x].
Proof.
  intros x Hx. apply fold_table_unit_fix.
  unfold no_key, is_key in Hx. apply negb_true_iff in Hx. exact Hx.
Qed.

(** The table maps no key to a key. *)
Lemma no_key_image :
  forall x : N, forallb no_key (fold_table CHAR_TABLE [x]) = true.
Proof.
  intro x. destruct (is_key x) eqn:Hk.
  - unfold is_key in Hk. apply existsb_exists in Hk.
    destruct Hk as (c & Hin & Hc). apply N.eqb_eq in Hc. subst c.
    assert (Hall : forallb (fun c => forallb no_key (fold_table CHAR_TABLE [c]))
                           (map fst CHAR_TABLE) = true)
      by (vm_compute; reflexivity).
    rewrite forallb_forall in Hall. apply Hall. exact Hin.
  - rewrite image_fix by (unfold no_key; rewrite Hk; reflexivity).
    cbn. unfold no_key. rewrite Hk. reflexivity.
Qed.

Lemma no_key_fold_characters :
  forall s : jsstring, forallb no_key (fold_characters s) = true.
Proof.
  intro s. rewrite fold_characters_table, fold_table_units.
  apply forallb_flat_map. exact no_key_image.
Qed.

Lemma fold_characters_fix :
  forall s : jsstring,
    forallb no_key s = true -> fold_characters s = s.
Proof.
  intros s H. rewrite fold_characters_table, fold_table_units.
  induction s as [|x s IH]; [reflexivity|].
  cbn in H. apply andb_true_iff in H. destruct H as [Hx H].
  cbn [flat_map]. rewrite (image_fix _ Hx), IH by exact H. reflexivity.
Qed.

(** *** The title variations *)

Lemma no_key_fold_variations :
  forall s : jsstring,
    forallb no_key s = true -> forallb no_key (fold_variations s) = true.
Proof.
  intros s H. unfold fold_variations.
  assert (Ht : Forall (fun v => p_global (from v) = true
                                /\ tpl_ok no_key (to v))
                      ANIME_TITLE_VARIATIONS).
  { repeat constructor. }
  revert s H. induction Ht as [|v vs [Hg Hv] _ IH]; intros s H; cbn.
  - exact H.
  - apply IH. apply replace_ok; assumption.
Qed.

Lemma fold_variations_fix :
  forall s : jsstring, no_variation s = true -> fold_variations s = s.
Proof.
  intro s. unfold no_variation, fold_variations.
  induction ANIME_TITLE_VARIATIONS as [|v vs IH]; cbn; intro H;
    [reflexivity|].
  apply andb_true_iff in H. destruct H as [Hv H].
  rewrite replace_no_match; [apply IH; exact H|].
  unfold test in Hv. destruct (exec (from v) s); [discriminate Hv|reflexivity].
Qed.

(** *** The result of [normalize] *)

Lemma normalize_shape :
  forall s : jsstring,
    forallb no_key (normalize s) = true
    /\ single_spaced (normalize s) = true
    /\ trim (normalize s) = normalize s.
Proof.
  intro s. unfold normalize. rewrite replace_ws.
  split; [|split].
  - apply trim_ok, squeeze_ok; [reflexivity|].
    apply no_key_fold_variations, no_key_fold_characters.
  - apply single_spaced_trim, single_spaced_squeeze.
  - apply trim_trim.
Qed.

End NormalizeShape.

Section NormalizeIdempotence.

Import NormalForm StringNormalizer.

Unset Implicit Arguments.

(** "season 1" is normalized to "S1", and "S1" to "s1": the marker written
    by the season rule is in upper case, which the next call lowers.
    "ouu" goes to "ou" and then to "o": the long-vowel rules make one pass. *)
Lemma normalize_not_idempotent :
  normalize (js "season 1") = js "S1"
  /\ normalize (normalize (js "season 1")) = js "s1"
  /\ normalize (normalize (js "season 1")) <> normalize (js "season 1")
  /\ normalize (normalize (js "ouu")) <> normalize (js "ouu").
Proof. vm_compute. repeat split; discriminate. Qed.

(** C1 (amended). [normalize(normalize(s)) == normalize(s)] holds for every
    string [s] whose normal form is left unchanged by [toLowerCase] and is
    matched by none of the patterns of [ANIME_TITLE_VARIATIONS]: the normal
    form is always trimmed, single-spaced and free of the characters of the
    folding table, so a second call finds nothing to change. *)
Theorem normalize_idempotent_when_settled :
  forall s : jsstring,
    toLowerCase (normalize s) = normalize s ->
    no_variation (normalize s) = true ->
    normalize (normalize s) = normalize s.
Proof.
  intros s Hlow Hvar.
  destruct (normalize_shape s) as (Hk & Hss & Htrim).
  remember (normalize s) as t eqn:Et. clear Et s.
  unfold normalize.
  rewrite Hlow, Htrim.
  rewrite (fold_characters_fix _ Hk), (fold_variations_fix _ Hvar).
  rewrite replace_ws, (proj1 (squeeze_fix _ Hss)).
  exact Htrim.
Qed.

(** The theorem at "  Shingeki   no  Kyojin ": its normal form
    "shingeki no kyojin" is in lower case and holds no title variation. *)
Lemma normalize_idempotent_when_settled_witness :
  normalize (js "  Shingeki   no  Kyojin ") = js "shingeki no kyojin"
  /\ normalize (normalize (js "  Shingeki   no  Kyojin "))
     = normalize (js "  Shingeki   no  Kyojin ").
Proof.
  split; [vm_compute; reflexivity|].
  apply normalize_idempotent_when_settled; vm_compute; reflexivity.
Defined.

End NormalizeIdempotence.
